(** * Failure extraction from test-execution reports ([trial.py])

    A shallow embedding of [parse_single_file]: the six compiled patterns,
    the block index, the line scan with its proximity window, the orphan
    pass and the final de-duplication, followed by the properties of the
    extraction that the specification states.

    Text is a [string] over the 8-bit [ascii] alphabet, read as the code
    points 0..255; the character classes below are those of Python's [re]
    on that range.  The HTML library is outside the program: a document is
    given by what [find_all]/[get_text] return for it. *)

From Stdlib Require Import Ascii String.
From stdpp Require Import gmap strings pretty list fin_maps.

(** ** Characters *)

Module Chr.

Definition code (c : ascii) : nat := nat_of_ascii c.

Definition between (lo hi : nat) (c : ascii) : bool :=
  (lo <=? code c) && (code c <=? hi).

(** [\d] *)
Definition is_digit (c : ascii) : bool := between 48 57 c.

Definition is_upper (c : ascii) : bool := between 65 90 c.
Definition is_lower (c : ascii) : bool := between 97 122 c.

(** [[A-Z]] under [re.IGNORECASE] *)
Definition is_letter (c : ascii) : bool := is_upper c || is_lower c.

(** [\s], which is also what [str.strip] removes *)
Definition is_space (c : ascii) : bool :=
  between 9 13 c || between 28 32 c || (code c =? 133) || (code c =? 160).

(** [\S] *)
Definition non_space (c : ascii) : bool := negb (is_space c).

(** the negated class of the URL pattern: anything but whitespace and
    the two quote characters (codes 34 and 39) *)
Definition url_char (c : ascii) : bool :=
  negb (is_space c || (code c =? 34) || (code c =? 39)).

(** [\w], the class that decides [\b] *)
Definition is_word (c : ascii) : bool :=
  is_digit c || is_letter c || (code c =? 95)
  || (code c =? 170) || between 178 179 c || (code c =? 181)
  || between 185 186 c || between 188 190 c
  || between 192 214 c || between 216 246 c || between 248 255 c.

Definition to_lower (c : ascii) : ascii :=
  if is_upper c then ascii_of_nat (code c + 32) else c.

(** a literal of the pattern against a character of the text, ignoring case *)
Definition same_letter (a c : ascii) : bool :=
  bool_decide (to_lower a = to_lower c).

End Chr.

(** ** Regular expressions

    The fragment of [re] syntax the six patterns are written in.  A
    quantifier is greedy and applies to one character class ([\s*], [\d+],
    [[A-Z]{2,}]) except [?], which the URL pattern puts on a literal. *)

Inductive regex : Type :=
  | Lit (c : ascii)                         (* one literal character *)
  | Rep (cls : ascii → bool) (least : nat)  (* cls{least,}, greedy *)
  | Opt (r : regex)                         (* r?, greedy *)
  | Bound                                   (* \b *)
  | Grp (n : nat) (r : regex)               (* the n-th ( ... ) *)
  | Cat (r1 r2 : regex)
  | Emp.

(** a literal run of the pattern *)
Fixpoint Str (s : string) : regex :=
  match s with
  | EmptyString => Emp
  | String c s' => Cat (Lit c) (Str s')
  end.

(** the concatenation of the items of a pattern, left to right *)
Fixpoint Seq (rs : list regex) : regex :=
  match rs with
  | [] => Emp
  | r :: rs' => Cat r (Seq rs')
  end.

(** A position of the matcher inside the subject: the character just
    before it, the text still ahead, and the groups closed so far. *)
Record mstate : Type := MState {
  ms_prev : option ascii;
  ms_rest : string;
  ms_groups : gmap nat string
}.

Definition word_before (st : mstate) : bool :=
  match ms_prev st with Some c => Chr.is_word c | None => false end.

Definition word_after (st : mstate) : bool :=
  match ms_rest st with String c _ => Chr.is_word c | EmptyString => false end.

Definition at_boundary (st : mstate) : bool := xorb (word_before st) (word_after st).

(** the text between two positions [s] and its suffix [s'] *)
Fixpoint str_take (n : nat) (s : string) : string :=
  match n, s with
  | S n', String c s' => String c (str_take n' s')
  | _, _ => EmptyString
  end.

Definition consumed (s s' : string) : string :=
  str_take (String.length s - String.length s') s.

(** Every way [cls{least,}] can match at a position, longest first: the
    order in which a backtracking matcher gives the repetition back. *)
Fixpoint rep (cls : ascii → bool) (least : nat) (prev : option ascii) (s : string)
    (g : gmap nat string) : list mstate :=
  let stop := if least is 0 then [MState prev s g] else [] in
  match s with
  | String c s' =>
      if cls c then rep cls (pred least) (Some c) s' g ++ stop else stop
  | EmptyString => stop
  end.

(** Every way a pattern can match at a position, in the order a
    backtracking matcher tries them; the head is the match [re] reports. *)
Fixpoint matches (r : regex) (st : mstate) : list mstate :=
  match r with
  | Lit a =>
      match ms_rest st with
      | String c s' =>
          if Chr.same_letter a c then [MState (Some c) s' (ms_groups st)] else []
      | EmptyString => []
      end
  | Rep cls least => rep cls least (ms_prev st) (ms_rest st) (ms_groups st)
  | Opt r' => matches r' st ++ [st]
  | Bound => if at_boundary st then [st] else []
  | Grp n r' =>
      (λ st', MState (ms_prev st') (ms_rest st')
                (<[n := consumed (ms_rest st) (ms_rest st')]> (ms_groups st')))
        <$> matches r' st
  | Cat r1 r2 => matches r1 st ≫= matches r2
  | Emp => [st]
  end.

(** [pattern.search(text)] from a position on: the leftmost start at which
    the pattern matches; the result is the groups of the match. *)
Fixpoint search_from (r : regex) (prev : option ascii) (s : string)
    : option (gmap nat string) :=
  match matches r (MState prev s ∅) with
  | st :: _ => Some (ms_groups st)
  | [] =>
      match s with
      | String c s' => search_from r (Some c) s'
      | EmptyString => None
      end
  end.

Definition search (r : regex) (s : string) : option (gmap nat string) :=
  search_from r None s.

(** [match.group(n)] for a group that took part in the match *)
Definition group (n : nat) (m : gmap nat string) : string := default "" (m !! n).

(** ** The patterns *)

Definition ws : regex := Rep Chr.is_space 0.
Definition digits : regex := Rep Chr.is_digit 1.

Definition FAILURE_LINE_PATTERN : regex :=
  Grp 1 (Seq [Str "status code was:"; ws; Grp 2 digits;
              Str ","; ws; Str "expected:"; ws; Grp 3 digits;
              Str ","; ws; Str "response time in milliseconds:"; ws; Grp 4 digits;
              Str ","; ws; Str "url:"; ws; Grp 5 (Rep Chr.non_space 1);
              Str ","; ws; Str "response:"]).

Definition ALT_FAILURE_PATTERN : regex :=
  Seq [Str "Expected"; ws; Str ":"; ws; Grp 1 digits;
       Str ";"; ws; Str "But it was"; ws; Str ":"; Grp 2 digits].

Definition CUCUMBER_URL_PATTERN : regex :=
  Grp 1 (Seq [Str "http"; Opt (Lit "s"); Str "://"; Rep Chr.url_char 1]).

(** [[A-Z]+-[A-Z]*\d+], with [{2,}] in place of [+] for the strict form *)
Definition ident (least : nat) : regex :=
  Seq [Rep Chr.is_letter least; Str "-"; Rep Chr.is_letter 0; digits].

Definition FEATURE_LINE_PATTERN : regex := Seq [Grp 1 (ident 1); Str ".feature"].
Definition TEST_CASE_PATTERN : regex := Seq [Bound; Grp 1 (ident 1); Bound].
Definition ADDITIONAL_PATTERN : regex := Seq [Bound; Grp 1 (ident 2); Bound].

(** ** Documents and records

    What the program reads off the parsed report: for every
    [div class="element"], in document order, its text joined by spaces,
    the texts of its [div class="output"] descendants, and its text split
    into lines; and the lines of the text of the whole document. *)

Record Block : Type := {
  case_text : string;            (* element.get_text(" ", strip=True) *)
  output_texts : list string;    (* get_text(" ", strip=True) of each output div *)
  text_lines : list string       (* element.get_text("\n", strip=True).splitlines() *)
}.

Record Document : Type := {
  blocks : list Block;           (* soup.find_all("div", class_="element") *)
  lines : list string            (* soup.get_text("\n", strip=True).splitlines() *)
}.

Record FailureRecord : Type := {
  status_info : string;
  testcase : string;
  url : string;
  error_analysis : string
}.

Record Report : Type := {
  total_unique : nat;
  status_summary : gmap string nat;
  failures : list FailureRecord
}.

#[global] Instance FailureRecord_eq_dec : EqDecision FailureRecord.
Proof. solve_decision. Defined.

(** ** Python helpers *)

(** truth value of a string *)
Definition truthy (s : string) : bool := bool_decide (s ≠ "").

(** [range(a, b)] *)
Definition py_range (a b : nat) : list nat := seq a (b - a).

Definition nl : string := String (ascii_of_nat 10) "".

(** [sep.join(parts)] *)
Fixpoint join (sep : string) (parts : list string) : string :=
  match parts with
  | [] => ""
  | [p] => p
  | p :: ps => p +:+ sep +:+ join sep ps
  end.

(** [bool(line.strip())]: some character of the line is not whitespace *)
Fixpoint nonblank (s : string) : bool :=
  match s with
  | EmptyString => false
  | String c s' => negb (Chr.is_space c) || nonblank s'
  end.

Definition URL_NOT_FOUND : string := "URL Not Found".

(** ** Step 1: test case to URL mapping *)

(** [A.search(t) or B.search(t) or C.search(t)], then [group(1)] *)
Definition case_id_of (text : string) : option string :=
  match search FEATURE_LINE_PATTERN text with
  | Some m => Some (group 1 m)
  | None =>
      match search TEST_CASE_PATTERN text with
      | Some m => Some (group 1 m)
      | None =>
          match search ADDITIONAL_PATTERN text with
          | Some m => Some (group 1 m)
          | None => None
          end
      end
  end.

(** the first output div with a URL in it gives the block's URL *)
Fixpoint first_url (outs : list string) : option string :=
  match outs with
  | [] => None
  | t :: outs' =>
      match search CUCUMBER_URL_PATTERN t with
      | Some m => Some (group 1 m)
      | None => first_url outs'
      end
  end.

(** one turn of the first loop over the blocks *)
Definition index_block (cucumber_urls : gmap string string) (element : Block)
    : gmap string string :=
  match case_id_of (case_text element), first_url (output_texts element) with
  | Some case_id, Some u =>
      if truthy case_id && truthy u then <[case_id := u]> cucumber_urls
      else cucumber_urls
  | _, _ => cucumber_urls
  end.

Definition build_urls (bs : list Block) : gmap string string :=
  foldl index_block ∅ bs.

(** ** Step 2: failures in the text *)

(** The failure signal of a line: observed status, expected status and
    URL.  The verbose form is looked at first. *)
Definition signal (line : string) : option (string * string * string) :=
  match search FAILURE_LINE_PATTERN line with
  | Some m => Some (group 2 m, group 3 m, group 5 m)
  | None =>
      match search ALT_FAILURE_PATTERN line with
      | Some a => Some (group 2 a, group 1 a, URL_NOT_FOUND)
      | None => None
      end
  end.

(** the identifier a line of the window gives, if any *)
Definition line_case_id (line : string) : option string :=
  match search FEATURE_LINE_PATTERN line with
  | Some m => Some (group 1 m)
  | None =>
      match search TEST_CASE_PATTERN line with
      | Some m => Some (group 1 m)
      | None =>
          match search ADDITIONAL_PATTERN line with
          | Some m => Some (group 1 m)
          | None => None
          end
      end
  end.

(** the loop [for j in ...] with its [break] *)
Fixpoint scan_window (ls : list string) (js : list nat) : option string :=
  match js with
  | [] => None
  | j :: js' =>
      match ls !! j with
      | Some l =>
          match line_case_id l with
          | Some id => Some id
          | None => scan_window ls js'
          end
      | None => scan_window ls js'   (* not reached: j < len(lines) *)
      end
  end.

Definition find_test_case (ls : list string) (i : nat) : option string :=
  scan_window ls (py_range (Nat.max 0 (i - 5)) (Nat.min (length ls) (i + 15))).

(** the lines at the given indices that have something on them *)
Fixpoint collect_context (ls : list string) (js : list nat) : list string :=
  match js with
  | [] => []
  | j :: js' =>
      match ls !! j with
      | Some l => if nonblank l then l :: collect_context ls js'
                  else collect_context ls js'
      | None => collect_context ls js'   (* not reached: j < len(lines) *)
      end
  end.

Definition context_lines (ls : list string) (i : nat) : list string :=
  collect_context ls (py_range (Nat.max 0 i) (Nat.min (length ls) (i + 8))).

Definition failure_type (status_code expected_code : string) : string :=
  "HTTP " +:+ status_code +:+ " (expected " +:+ expected_code +:+ ")".

(** the URL after [if test_case_id and test_case_id in cucumber_urls] *)
Definition resolve_url (cucumber_urls : gmap string string)
    (test_case_id : option string) (u : string) : string :=
  match test_case_id with
  | Some id =>
      if truthy id then
        match cucumber_urls !! id with Some u' => u' | None => u end
      else u
  | None => u
  end.

(** the body of the loop over the lines, at line [i] *)
Definition scan_line (cucumber_urls : gmap string string) (ls : list string)
    (i : nat) (line : string) : option FailureRecord :=
  match signal line with
  | None => None
  | Some (status_code, expected_code, u) =>
      let test_case_id := find_test_case ls i in
      Some {| status_info := failure_type status_code expected_code;
              testcase := default "" test_case_id;
              url := resolve_url cucumber_urls test_case_id u;
              error_analysis := join nl (context_lines ls i) |}
  end.

(** [for i, line in enumerate(lines)], from index [i] on *)
Fixpoint scan_from (cucumber_urls : gmap string string) (ls : list string)
    (i : nat) (todo : list string) : list FailureRecord :=
  match todo with
  | [] => []
  | line :: todo' =>
      match scan_line cucumber_urls ls i line with
      | Some f => f :: scan_from cucumber_urls ls (S i) todo'
      | None => scan_from cucumber_urls ls (S i) todo'
      end
  end.

Definition scan_failures (cucumber_urls : gmap string string) (ls : list string)
    : list FailureRecord :=
  scan_from cucumber_urls ls 0 ls.

(** ** Step 3: failures without status codes *)

Definition reported_of (results : list FailureRecord) : gset string :=
  list_to_set (filter (λ t, truthy t) (testcase <$> results)).

Definition orphan_record (cucumber_urls : gmap string string) (element : Block)
    (case_id : string) : FailureRecord :=
  {| status_info := "no status code";
     testcase := case_id;
     url := default URL_NOT_FOUND (cucumber_urls !! case_id);
     error_analysis := join nl (take 12 (text_lines element)) |}.

(** the second loop over the blocks; the records it appends *)
Fixpoint orphans (cucumber_urls : gmap string string)
    (reported_testcases : gset string) (bs : list Block) : list FailureRecord :=
  match bs with
  | [] => []
  | element :: bs' =>
      match case_id_of (case_text element) with
      | Some case_id =>
          if truthy case_id && bool_decide (case_id ∉ reported_testcases) then
            orphan_record cucumber_urls element case_id
              :: orphans cucumber_urls ({[case_id]} ∪ reported_testcases) bs'
          else orphans cucumber_urls reported_testcases bs'
      | None => orphans cucumber_urls reported_testcases bs'
      end
  end.

(** [results] when step 4 begins *)
Definition results_of (d : Document) : list FailureRecord :=
  let cucumber_urls := build_urls (blocks d) in
  let results := scan_failures cucumber_urls (lines d) in
  results ++ orphans cucumber_urls (reported_of results) (blocks d).

(** ** Step 4: deduplicate *)

Definition unique_key (f : FailureRecord) : string :=
  testcase f +:+ "_" +:+ status_info f.

(** The two collections of the loop: [unique_failures], a dict whose
    values are read back in insertion order, and
    [failures_without_testcase]. *)
Record dedup_state : Type := {
  unique_failures : list (string * FailureRecord);
  failures_without_testcase : list FailureRecord
}.

Definition has_key (k : string) (d : list (string * FailureRecord)) : bool :=
  bool_decide (k ∈ d.*1).

Definition dedup_step (st : dedup_state) (failure : FailureRecord) : dedup_state :=
  if truthy (testcase failure) then
    if has_key (unique_key failure) (unique_failures st) then st
    else {| unique_failures := unique_failures st ++ [(unique_key failure, failure)];
            failures_without_testcase := failures_without_testcase st |}
  else {| unique_failures := unique_failures st;
          failures_without_testcase := failures_without_testcase st ++ [failure] |}.

Definition dedup_loop (results : list FailureRecord) : dedup_state :=
  foldl dedup_step {| unique_failures := []; failures_without_testcase := [] |} results.

(** [Counter(...)], as the dict it is turned into *)
Definition counter (xs : list string) : gmap string nat :=
  foldl (λ m x, <[x := S (default 0 (m !! x))]> m) ∅ xs.

(** the step as a whole: what is returned for the records [results] *)
Definition deduplicate (results : list FailureRecord) : Report :=
  let unique_results := (unique_failures (dedup_loop results)).*2 in
  {| total_unique := length unique_results;
     status_summary := counter (status_info <$> unique_results);
     failures := unique_results |}.

Definition parse_single_file (d : Document) : Report :=
  deduplicate (results_of d).

(** ** The endpoint

    [parse_failures]: every upload, given by its file name and the parsed
    report, is handed to [parse_single_file]; the results are numbered
    from 1. *)

Record FileResult : Type := {
  file_id : string;
  filename : string;
  parsed : Report
}.

Record BatchResult : Type := {
  files_processed : nat;
  results : list FileResult
}.

Definition parse_failures (files : list (string * Document)) : BatchResult :=
  let all_results :=
    imap (λ i file, {| file_id := "file_" +:+ pretty (S i);
                       filename := file.1;
                       parsed := parse_single_file file.2 |}) files in
  {| files_processed := length all_results; results := all_results |}.

(** ** Definitions used in the statements *)

(** every character of the string is in the class *)
Fixpoint str_all (P : ascii → bool) (s : string) : bool :=
  match s with
  | EmptyString => true
  | String c s' => P c && str_all P s'
  end.

(** the group numbers a pattern writes *)
Fixpoint grp_names (r : regex) : list nat :=
  match r with
  | Opt r' => grp_names r'
  | Grp n r' => n :: grp_names r'
  | Cat r1 r2 => grp_names r1 ++ grp_names r2
  | _ => []
  end.

(** every character the pattern can consume is in the class [P] *)
Fixpoint atoms_in (P : ascii → bool) (r : regex) : Prop :=
  match r with
  | Lit a => ∀ c, Chr.same_letter a c = true → P c = true
  | Rep cls _ => ∀ c, cls c = true → P c = true
  | Opt r' | Grp _ r' => atoms_in P r'
  | Cat r1 r2 => atoms_in P r1 ∧ atoms_in P r2
  | Bound | Emp => True
  end.

(** a captured number: one decimal digit or more *)
Definition is_number (s : string) : Prop :=
  str_all Chr.is_digit s = true ∧ s ≠ "".

(** the characters an identifier is made of: letters, digits, the hyphen *)
Definition id_char (c : ascii) : bool :=
  Chr.is_letter c || Chr.is_digit c || (Chr.code c =? 45).

(** The identifier chain with the strict pattern left out: the feature
    form, then the generic form. *)
Definition two_pattern_id (text : string) : option string :=
  match search FEATURE_LINE_PATTERN text with
  | Some m => Some (group 1 m)
  | None =>
      match search TEST_CASE_PATTERN text with
      | Some m => Some (group 1 m)
      | None => None
      end
  end.

(** what a block contributes to the mapping: its identifier and URL, when
    it has both *)
Definition block_entry (b : Block) : option (string * string) :=
  match case_id_of (case_text b), first_url (output_texts b) with
  | Some case_id, Some u =>
      if truthy case_id && truthy u then Some (case_id, u) else None
  | _, _ => None
  end.

(** The mapping keeps, for an identifier, the URL of the first block that
    gives one. *)
Definition first_url_wins (bs : list Block) : Prop :=
  ∀ k b id u,
    bs !! k = Some b → block_entry b = Some (id, u) →
    (∀ k' b' u', k' < k → bs !! k' = Some b' → block_entry b' ≠ Some (id, u')) →
    build_urls bs !! id = Some u.

(** what two records must share to count as duplicates *)
Definition pair_of (f : FailureRecord) : string * string :=
  (testcase f, status_info f).

(** the least number of characters a match of the pattern consumes *)
Fixpoint min_len (r : regex) : nat :=
  match r with
  | Lit _ => 1
  | Rep _ least => least
  | Grp _ r' => min_len r'
  | Cat r1 r2 => min_len r1 + min_len r2
  | Opt _ | Bound | Emp => 0
  end.

(** [w] occurs in [s] *)
Definition substring (w s : string) : Prop := ∃ u v, s = u +:+ w +:+ v.

(** the shape of an identifier: identifier characters, three or more *)
Definition is_ident (w : string) : Prop :=
  str_all id_char w = true ∧ 3 ≤ String.length w.

(** the shape of a URL: no whitespace and no quote, eight characters or more *)
Definition is_url (w : string) : Prop :=
  str_all Chr.url_char w = true ∧ 8 ≤ String.length w.

(** the status a line with a failure signal reports *)
Definition line_status (line : string) : option string :=
  (λ sig : string * string * string, failure_type sig.1.1 sig.1.2) <$> signal line.

(** how often a status occurs among the records *)
Definition count_status (s : string) (fs : list FailureRecord) : nat :=
  length (filter (λ x, x = s) (status_info <$> fs)).

(** the sum of the counts of a summary *)
Definition sum_counts (m : gmap string nat) : nat :=
  map_fold (λ _ n acc, n + acc) 0 m.

(** ** Sample reports *)

(** [<div class="element">id <div class="output">u</div></div>] *)
Definition block_with (id u : string) : Block :=
  {| case_text := id +:+ " " +:+ u;
     output_texts := [u];
     text_lines := [id; u] |}.

(** a report whose only text is one terse failure line *)
Definition doc_lone_signal : Document :=
  {| blocks := []; lines := ["Expected : 200; But it was :500"] |}.

(** two blocks for the same test case, each with its own URL *)
Definition doc_two_urls : Document :=
  {| blocks := [block_with "TC-1" "http://a"; block_with "TC-1" "http://b"];
     lines := ["TC-1"; "http://a"; "TC-1"; "http://b"] |}.

Definition doc_empty : Document := {| blocks := []; lines := [] |}.

(** scenario A: a verbose failure line, its test case three lines below *)
Definition verbose_line : string :=
  "status code was: 404, expected: 200, response time in milliseconds: 120, url: http://x/y, response:".

Definition doc_verbose : Document :=
  {| blocks := [];
     lines := [verbose_line; "{}"; "   "; "TC-1234 running"] |}.

(** the same failure reported twice, ahead of the block of its test case *)
Definition doc_repeated : Document :=
  {| blocks := [block_with "TC-7" "http://b/7"];
     lines := ["Expected : 200; But it was :500";
               "Expected : 200; But it was :500 again"; "TC-7"; "http://b/7"] |}.

(** a block with an identifier and no URL, and one with both *)
Definition doc_partial_index : Document :=
  {| blocks := [{| case_text := "AB-1 setup"; output_texts := ["no link"];
                   text_lines := ["AB-1 setup"; "no link"] |};
                block_with "CD-2" "https://host/cd"];
     lines := ["AB-1 setup"; "no link"; "CD-2"; "https://host/cd"] |}.

(** three blocks, two of them for the same test case, and no failure line *)
Definition doc_orphans : Document :=
  {| blocks := [{| case_text := "QA-5 first"; output_texts := [];
                   text_lines := ["QA-5 first"] |};
                block_with "QA-6" "http://h/6";
                {| case_text := "QA-5 again http://h/5"; output_texts := ["http://h/5"];
                   text_lines := ["QA-5 again"; "http://h/5"] |}];
     lines := ["QA-5 first"; "QA-6"; "http://h/6"; "QA-5 again"; "http://h/5"] |}.

(** * Properties *)

(** ** Strings *)

#[local] Arguments String.append !_ _ / : simpl nomatch.

Lemma str_app_nil_r (s : string) : s +:+ "" = s.
Proof. induction s as [|c s IH]; simpl; [done | by rewrite IH]. Qed.

Lemma str_app_assoc (a b c : string) : (a +:+ b) +:+ c = a +:+ (b +:+ c).
Proof. induction a as [|x a IH]; simpl; [done | by rewrite IH]. Qed.

Lemma str_length_app (a b : string) :
  String.length (a +:+ b) = String.length a + String.length b.
Proof. induction a as [|x a IH]; simpl; [done | by rewrite IH]. Qed.

Lemma str_all_app P (a b : string) : str_all P (a +:+ b) = str_all P a && str_all P b.
Proof.
  induction a as [|x a IH]; simpl; [done |].
  by rewrite IH, andb_assoc.
Qed.

Lemma str_all_impl (P Q : ascii → bool) (s : string) :
  (∀ c, P c = true → Q c = true) → str_all P s = true → str_all Q s = true.
Proof.
  intros HPQ. induction s as [|c s IH]; simpl; [done |].
  intros [Hc Hs]%andb_true_iff. rewrite (HPQ _ Hc). by apply IH.
Qed.

Lemma str_take_app (w t : string) : str_take (String.length w) (w +:+ t) = w.
Proof. induction w as [|c w IH]; simpl; [by destruct t | by rewrite IH]. Qed.

Lemma consumed_app (w t : string) : consumed (w +:+ t) t = w.
Proof.
  unfold consumed. rewrite str_length_app.
  replace (String.length w + String.length t - String.length t)
    with (String.length w) by lia.
  apply str_take_app.
Qed.

Lemma nonblank_app_r (w s : string) : nonblank s = true → nonblank (w +:+ s) = true.
Proof.
  intros Hs. induction w as [|c w IH]; simpl; [done |].
  rewrite IH. apply orb_true_r.
Qed.

(** ** The matcher *)

Lemma elem_of_rep cls least prev s g x :
  x ∈ rep cls least prev s g →
  ∃ w, s = w +:+ ms_rest x ∧ str_all cls w = true
       ∧ least ≤ String.length w ∧ ms_groups x = g.
Proof.
  revert least prev. induction s as [|c s IH]; intros least prev; simpl.
  - destruct least; [|by intros ?%elem_of_nil].
    intros ->%list_elem_of_singleton. by exists "".
  - assert (Hstop : x ∈ (if least is 0 then [MState prev (String c s) g] else []) →
      ∃ w, String c s = w +:+ ms_rest x ∧ str_all cls w = true
           ∧ least ≤ String.length w ∧ ms_groups x = g).
    { destruct least; [|by intros ?%elem_of_nil].
      intros ->%list_elem_of_singleton. by exists "". }
    destruct (cls c) eqn:Hc; [|done].
    intros [Hin|Hin]%elem_of_app; [|by apply Hstop].
    destruct (IH _ _ Hin) as (w & -> & Hw & Hle & Hg).
    exists (String c w). simpl. rewrite Hc, Hw. repeat split; [lia | done].
Qed.

Lemma rep_mono cls least least' prev s g x :
  least' ≤ least → x ∈ rep cls least prev s g → x ∈ rep cls least' prev s g.
Proof.
  revert least least' prev. induction s as [|c s IH]; intros least least' prev Hle; simpl.
  - destruct least; [|by intros ?%elem_of_nil].
    by replace least' with 0 by lia.
  - assert (Hstop : x ∈ (if least is 0 then [MState prev (String c s) g] else []) →
      x ∈ (if least' is 0 then [MState prev (String c s) g] else [])).
    { destruct least; [|by intros ?%elem_of_nil]. by replace least' with 0 by lia. }
    destruct (cls c); [|done].
    intros [Hin|Hin]%elem_of_app; apply elem_of_app; [left | right; by apply Hstop].
    apply (IH (pred least)); [lia | done].
Qed.

Lemma matches_frame r n st x :
  n ∉ grp_names r → x ∈ matches r st → ms_groups x !! n = ms_groups st !! n.
Proof.
  revert st x. induction r as [a|cls least|r IH| |k r IH|r1 IH1 r2 IH2|];
    intros st x Hn; simpl in *.
  - destruct (ms_rest st) as [|c s]; [by intros ?%elem_of_nil|].
    destruct (Chr.same_letter a c); [|by intros ?%elem_of_nil].
    by intros ->%list_elem_of_singleton.
  - intros (w & _ & _ & _ & ->)%elem_of_rep. done.
  - intros [Hin | ->%list_elem_of_singleton]%elem_of_app; [by apply IH | done].
  - destruct (at_boundary st); [|by intros ?%elem_of_nil].
    by intros ->%list_elem_of_singleton.
  - intros (y & -> & Hy)%list_elem_of_fmap. simpl.
    rewrite lookup_insert_ne by set_solver. apply IH; [set_solver | done].
  - intros (y & Hx & Hy)%list_elem_of_bind.
    rewrite (IH2 y x), (IH1 st y); [done | set_solver | done | set_solver | done].
  - by intros ->%list_elem_of_singleton.
Qed.

Lemma matches_consumes P r st x :
  atoms_in P r → x ∈ matches r st →
  ∃ w, ms_rest st = w +:+ ms_rest x ∧ str_all P w = true.
Proof.
  revert st x. induction r as [a|cls least|r IH| |k r IH|r1 IH1 r2 IH2|];
    intros st x Hat; simpl in *.
  - destruct (ms_rest st) as [|c s]; [by intros ?%elem_of_nil|].
    destruct (Chr.same_letter a c) eqn:Hc; [|by intros ?%elem_of_nil].
    intros ->%list_elem_of_singleton. exists (String c ""). simpl.
    by rewrite (Hat _ Hc).
  - intros (w & -> & Hw & _ & _)%elem_of_rep. exists w. split; [done|].
    by apply (str_all_impl cls).
  - intros [Hin | ->%list_elem_of_singleton]%elem_of_app; [by apply IH | by exists ""].
  - destruct (at_boundary st); [|by intros ?%elem_of_nil].
    intros ->%list_elem_of_singleton. by exists "".
  - intros (y & -> & Hy)%list_elem_of_fmap. simpl. by apply IH.
  - destruct Hat as [H1 H2]. intros (y & Hx & Hy)%list_elem_of_bind.
    destruct (IH1 _ _ H1 Hy) as (w1 & E1 & Hw1).
    destruct (IH2 _ _ H2 Hx) as (w2 & E2 & Hw2).
    exists (w1 +:+ w2). rewrite str_app_assoc, <- E2, <- E1.
    by rewrite str_all_app, Hw1, Hw2.
  - intros ->%list_elem_of_singleton. by exists "".
Qed.

(** closes [n ∉ grp_names r] for a given pattern and group number *)
Ltac group_unused :=
  let Hin := fresh "Hin" in
  simpl; intros Hin;
  repeat (apply elem_of_cons in Hin as [Hin|Hin]; [discriminate Hin|]);
  by apply elem_of_nil in Hin.

(** In a sequence of items, a group that no later item writes again holds
    the text its own pattern consumed. *)
Lemma seq_group (Q : string → Prop) n r pre post st x :
  (∀ st' y, y ∈ matches r st' → ∃ w, ms_rest st' = w +:+ ms_rest y ∧ Q w) →
  n ∉ grp_names (Seq post) →
  x ∈ matches (Seq (pre ++ Grp n r :: post)) st →
  ∃ w, ms_groups x !! n = Some w ∧ Q w.
Proof.
  intros Hr Hpost. revert st. induction pre as [|a pre IH]; intros st.
  - change (x ∈ matches (Grp n r) st ≫= matches (Seq post) →
            ∃ w, ms_groups x !! n = Some w ∧ Q w).
    intros (y & Hx & Hy)%list_elem_of_bind.
    change (y ∈ (λ st', MState (ms_prev st') (ms_rest st')
                   (<[n := consumed (ms_rest st) (ms_rest st')]> (ms_groups st')))
                <$> matches r st) in Hy.
    apply list_elem_of_fmap in Hy as (z & -> & Hz).
    destruct (Hr _ _ Hz) as (w & E & HQ). exists w. split; [|done].
    rewrite (matches_frame _ n _ _ Hpost Hx). simpl.
    by rewrite lookup_insert_eq, E, consumed_app.
  - change (x ∈ matches a st ≫= matches (Seq (pre ++ Grp n r :: post)) →
            ∃ w, ms_groups x !! n = Some w ∧ Q w).
    intros (y & Hx & Hy)%list_elem_of_bind. by apply (IH y).
Qed.

Lemma digits_consume st y :
  y ∈ matches digits st → ∃ w, ms_rest st = w +:+ ms_rest y ∧ is_number w.
Proof.
  unfold digits. simpl. intros (w & E & Hw & Hlen & _)%elem_of_rep.
  exists w. split; [done|]. split; [done|]. intros ->. simpl in Hlen. lia.
Qed.

(** [search] reports a match of the pattern at some position of the text *)
Lemma search_from_Some r prev s m :
  search_from r prev s = Some m →
  ∃ w prev' s' x, s = w +:+ s' ∧ x ∈ matches r (MState prev' s' ∅)
                  ∧ m = ms_groups x.
Proof.
  revert prev. induction s as [|c s IH]; intros prev; simpl.
  - destruct (matches r (MState prev "" ∅)) as [|x xs] eqn:E; [done|].
    intros [= <-]. exists "", prev, "", x. rewrite E. set_solver.
  - destruct (matches r (MState prev (String c s) ∅)) as [|x xs] eqn:E.
    + intros (w & prev' & s' & x & -> & Hx & ->)%IH.
      by exists (String c w), prev', s', x.
    + intros [= <-]. exists "", prev, (String c s), x. rewrite E. set_solver.
Qed.

(** [search] fails only if the pattern matches at no position *)
Lemma search_from_None r prev s :
  search_from r prev s = None → matches r (MState prev s ∅) = [].
Proof. destruct s; simpl; by destruct (matches r _). Qed.

Lemma search_from_mono r1 r2 prev s :
  (∀ st x, x ∈ matches r1 st → x ∈ matches r2 st) →
  is_Some (search_from r1 prev s) → is_Some (search_from r2 prev s).
Proof.
  intros Hsub. revert prev. induction s as [|c s IH]; intros prev; simpl.
  - destruct (matches r1 (MState prev "" ∅)) as [|x xs] eqn:E1; [by intros [? [=]]|].
    intros _. assert (Hx : x ∈ matches r2 (MState prev "" ∅)).
    { apply Hsub. rewrite E1. set_solver. }
    destruct (matches r2 _); [by apply elem_of_nil in Hx | done].
  - destruct (matches r2 (MState prev (String c s) ∅)) as [|y ys] eqn:E2; [|done].
    destruct (matches r1 (MState prev (String c s) ∅)) as [|x xs] eqn:E1; [apply IH|].
    assert (Hx : x ∈ matches r2 (MState prev (String c s) ∅)).
    { apply Hsub. rewrite E1. set_solver. }
    rewrite E2 in Hx. by apply elem_of_nil in Hx.
Qed.

(** ** The identifier patterns *)

Lemma matches_Cat_mono a a' b b' :
  (∀ st x, x ∈ matches a st → x ∈ matches a' st) →
  (∀ st x, x ∈ matches b st → x ∈ matches b' st) →
  ∀ st x, x ∈ matches (Cat a b) st → x ∈ matches (Cat a' b') st.
Proof.
  intros Ha Hb st x. simpl. intros (y & Hx & Hy)%list_elem_of_bind.
  apply list_elem_of_bind. exists y. auto.
Qed.

Lemma matches_Grp_mono n r r' :
  (∀ st x, x ∈ matches r st → x ∈ matches r' st) →
  ∀ st x, x ∈ matches (Grp n r) st → x ∈ matches (Grp n r') st.
Proof.
  intros Hr st x. simpl. intros (y & -> & Hy)%list_elem_of_fmap.
  apply list_elem_of_fmap. exists y. auto.
Qed.

Lemma ident_mono k k' st x :
  k' ≤ k → x ∈ matches (ident k) st → x ∈ matches (ident k') st.
Proof.
  intros Hk. unfold ident, Seq. revert st x. apply matches_Cat_mono; [|done].
  intros st x. simpl. by apply rep_mono.
Qed.

(** whatever the strict pattern matches, the generic one matches too *)
Lemma additional_in_test_case st x :
  x ∈ matches ADDITIONAL_PATTERN st → x ∈ matches TEST_CASE_PATTERN st.
Proof.
  unfold ADDITIONAL_PATTERN, TEST_CASE_PATTERN, Seq. revert st x.
  apply matches_Cat_mono; [done|]. apply matches_Cat_mono; [|done].
  apply matches_Grp_mono. intros st x. apply ident_mono. lia.
Qed.

Lemma hyphen_is_id_char c : Chr.same_letter "-" c = true → id_char c = true.
Proof.
  destruct c as [[] [] [] [] [] [] [] []]; vm_compute; done.
Qed.

Lemma ident_atoms k : atoms_in id_char (ident k).
Proof.
  unfold id_char. simpl. repeat split; try done.
  - intros c ->. done.
  - apply hyphen_is_id_char.
  - intros c ->. done.
  - intros c ->. by rewrite orb_true_r.
Qed.

Lemma ident_consume k st y :
  y ∈ matches (ident k) st →
  ∃ w, ms_rest st = w +:+ ms_rest y ∧ str_all id_char w = true.
Proof. apply matches_consumes, ident_atoms. Qed.

Lemma feature_group st x :
  x ∈ matches FEATURE_LINE_PATTERN st →
  ∃ w, ms_groups x !! 1 = Some w ∧ str_all id_char w = true.
Proof.
  apply (seq_group (λ w, str_all id_char w = true) 1 (ident 1) [] [Str ".feature"]).
  - apply ident_consume.
  - group_unused.
Qed.

Lemma bounded_group k st x :
  x ∈ matches (Seq [Bound; Grp 1 (ident k); Bound]) st →
  ∃ w, ms_groups x !! 1 = Some w ∧ str_all id_char w = true.
Proof.
  apply (seq_group (λ w, str_all id_char w = true) 1 (ident k) [Bound] [Bound]).
  - apply ident_consume.
  - group_unused.
Qed.

(** what holds of the groups of every match holds of what [search] returns *)
Lemma search_groups (Q : gmap nat string → Prop) r text m :
  (∀ st x, x ∈ matches r st → Q (ms_groups x)) →
  search r text = Some m → Q m.
Proof.
  intros Hr (w & prev & s & x & _ & Hx & ->)%search_from_Some. exact (Hr _ x Hx).
Qed.

Lemma search_group_chars r text m :
  (∀ st x, x ∈ matches r st →
     ∃ w, ms_groups x !! 1 = Some w ∧ str_all id_char w = true) →
  search r text = Some m → str_all id_char (group 1 m) = true.
Proof.
  intros Hr. apply (search_groups (λ g, str_all id_char (group 1 g) = true)).
  intros st x (w & Hw & Hall)%Hr. unfold group. by rewrite Hw.
Qed.

(** an identifier read off a text has letters, digits and hyphens only *)
Lemma case_id_of_chars text id :
  case_id_of text = Some id → str_all id_char id = true.
Proof.
  unfold case_id_of.
  destruct (search FEATURE_LINE_PATTERN text) as [m|] eqn:E1.
  { intros [= <-]. eapply search_group_chars; [apply feature_group | done]. }
  destruct (search TEST_CASE_PATTERN text) as [m|] eqn:E2.
  { intros [= <-]. eapply search_group_chars; [apply (bounded_group 1) | done]. }
  destruct (search ADDITIONAL_PATTERN text) as [m|] eqn:E3; [|done].
  intros [= <-]. eapply search_group_chars; [apply (bounded_group 2) | done].
Qed.

Lemma line_case_id_eq line : line_case_id line = case_id_of line.
Proof. reflexivity. Qed.

Lemma additional_search_None text :
  search TEST_CASE_PATTERN text = None → search ADDITIONAL_PATTERN text = None.
Proof.
  intros Hnone. destruct (search ADDITIONAL_PATTERN text) as [m|] eqn:E; [|done].
  destruct (search_from_mono ADDITIONAL_PATTERN TEST_CASE_PATTERN None text
              additional_in_test_case) as [m' Hm'].
  { by exists m. }
  unfold search in Hnone. congruence.
Qed.

(** C10. The strict-generic pattern finds something in a text only if the
    generic pattern does, so the third branch of the identifier chain is
    never taken: in the block extraction (used by the index and by the
    orphan pass) and in the proximity search the chain gives exactly what
    the chain of the feature form and the generic form gives. *)
Theorem strict_pattern_is_redundant :
  (∀ text, is_Some (search ADDITIONAL_PATTERN text) →
           is_Some (search TEST_CASE_PATTERN text))
  ∧ (∀ text, case_id_of text = two_pattern_id text)
  ∧ (∀ line, line_case_id line = two_pattern_id line).
Proof.
  assert (Hchain : ∀ text, case_id_of text = two_pattern_id text).
  { intros text. unfold case_id_of, two_pattern_id.
    destruct (search FEATURE_LINE_PATTERN text); [done|].
    destruct (search TEST_CASE_PATTERN text) eqn:E; [done|].
    by rewrite (additional_search_None text E). }
  split; [|split; [done|]].
  - intros text. apply search_from_mono, additional_in_test_case.
  - intros line. rewrite line_case_id_eq. apply Hchain.
Qed.

(** ** The block index *)

Lemma index_block_entry m b :
  index_block m b =
    match block_entry b with Some (id, u) => <[id := u]> m | None => m end.
Proof.
  unfold index_block, block_entry.
  destruct (case_id_of (case_text b)) as [id|]; [|done].
  destruct (first_url (output_texts b)) as [u|]; [|done].
  by destruct (truthy id && truthy u).
Qed.

Lemma build_urls_snoc bs b : build_urls (bs ++ [b]) = index_block (build_urls bs) b.
Proof. unfold build_urls. by rewrite foldl_app. Qed.

Lemma block_entry_truthy b id u : block_entry b = Some (id, u) → id ≠ "".
Proof.
  unfold block_entry.
  destruct (case_id_of (case_text b)) as [id'|]; [|done].
  destruct (first_url (output_texts b)) as [u'|]; [|done].
  destruct (truthy id') eqn:Hid; simpl; [|done].
  destruct (truthy u'); [|done].
  intros [= <- <-]. unfold truthy in Hid. by apply bool_decide_eq_true in Hid.
Qed.

(** the empty string is never a key of the mapping *)
Lemma build_urls_empty_key bs : build_urls bs !! "" = None.
Proof.
  induction bs as [|b bs IH] using rev_ind; [done|].
  rewrite build_urls_snoc, index_block_entry.
  destruct (block_entry b) as [[id u]|] eqn:E; [|done].
  apply block_entry_truthy in E. by rewrite lookup_insert_ne.
Qed.

Lemma parse_failures_lookup files k name d :
  files !! k = Some (name, d) →
  results (parse_failures files) !! k
  = Some {| file_id := "file_" +:+ pretty (S k); filename := name;
            parsed := parse_single_file d |}.
Proof. intros Hk. simpl. by rewrite list_lookup_imap, Hk. Qed.

(** C7. A document with no blocks and no lines gives the report
    [{total_unique: 0, status_summary: {}, failures: []}].  Extraction is a
    total function, so nothing is raised; in a batch the document gets this
    report at its own position and every upload is counted. *)
Theorem empty_document_empty_report (d : Document) :
  blocks d = [] → lines d = [] →
  let empty := {| total_unique := 0; status_summary := ∅; failures := [] |} in
  parse_single_file d = empty
  ∧ ∀ files k name, files !! k = Some (name, d) →
      files_processed (parse_failures files) = length files
      ∧ results (parse_failures files) !! k
        = Some {| file_id := "file_" +:+ pretty (S k); filename := name;
                  parsed := empty |}.
Proof.
  destruct d as [bs ls]. intros Hb Hl empty. simpl in Hb, Hl. subst bs ls.
  split; [reflexivity|]. intros files k name Hk. split.
  - apply length_imap.
  - by rewrite (parse_failures_lookup files k name _ Hk).
Qed.

Lemma empty_document_empty_report_witness :
  parse_single_file doc_empty
  = {| total_unique := 0; status_summary := ∅; failures := [] |}
  ∧ results (parse_failures [("a.html", doc_verbose); ("b.html", doc_empty)]) !! 1
    = Some {| file_id := "file_2"; filename := "b.html";
              parsed := {| total_unique := 0; status_summary := ∅;
                           failures := [] |} |}.
Proof.
  destruct (empty_document_empty_report doc_empty eq_refl eq_refl) as [Hrep Hbatch].
  split; [exact Hrep|].
  exact (proj2 (Hbatch [("a.html", doc_verbose); ("b.html", doc_empty)] 1 "b.html"
                  eq_refl)).
Defined.

(** C1. The claim asks that a record with an empty testcase reach the
    final output.  On a report that consists of one terse failure line the
    scan produces such a record and the loop of step 4 puts it in
    [failures_without_testcase], but the returned report is built from
    [unique_failures] alone: the record is lost. *)
Theorem lone_signal_is_dropped :
  let f := {| status_info := "HTTP 500 (expected 200)"; testcase := "";
              url := "URL Not Found";
              error_analysis := "Expected : 200; But it was :500" |} in
  results_of doc_lone_signal = [f]
  ∧ failures_without_testcase (dedup_loop (results_of doc_lone_signal)) = [f]
  ∧ parse_single_file doc_lone_signal
    = {| total_unique := 0; status_summary := ∅; failures := [] |}.
Proof. vm_compute. done. Qed.

(** C2 as stated fails: of two blocks for [TC-1] the mapping keeps the URL
    of the second. *)
Lemma first_url_wins_fails : ¬ first_url_wins (blocks doc_two_urls).
Proof.
  intros H.
  specialize (H 0 (block_with "TC-1" "http://a") "TC-1" "http://a" eq_refl eq_refl).
  assert (E : build_urls (blocks doc_two_urls) !! "TC-1" = Some "http://b")
    by (vm_compute; done).
  rewrite E in H. discriminate H. intros k' b' u' Hk. lia.
Qed.

(** C2, amended. For every identifier that blocks give with a URL, the
    mapping holds the URL of the last such block in document order: the
    assignment of a later block overwrites the entry of an earlier one. *)
Theorem last_url_wins (bs : list Block) (k : nat) (b : Block) (id u : string) :
  bs !! k = Some b → block_entry b = Some (id, u) →
  (∀ k' b' u', k < k' → bs !! k' = Some b' → block_entry b' ≠ Some (id, u')) →
  build_urls bs !! id = Some u.
Proof.
  revert k. induction bs as [|b0 bs IH] using rev_ind; intros k Hk Hb Hlast; [done|].
  rewrite build_urls_snoc, index_block_entry.
  destruct (decide (k = length bs)) as [->|Hne].
  - rewrite list_lookup_middle in Hk by done. injection Hk as ->.
    rewrite Hb. apply lookup_insert_eq.
  - assert (Hlt : k < length bs).
    { apply lookup_lt_Some in Hk. rewrite length_app in Hk. simpl in Hk. lia. }
    rewrite lookup_app_l in Hk by done.
    assert (H0 : ∀ u', block_entry b0 ≠ Some (id, u')).
    { intros u'. apply (Hlast (length bs)); [done|]. by apply list_lookup_middle. }
    assert (IH' : build_urls bs !! id = Some u).
    { apply (IH k); [done..|]. intros k' b' u' Hkk' Hk'.
      apply (Hlast k'); [done|]. apply lookup_app_l_Some. done. }
    destruct (block_entry b0) as [[id0 u0]|]; [|done].
    rewrite lookup_insert_ne; [done|]. intros ->. by apply (H0 u0).
Qed.

Lemma last_url_wins_witness :
  build_urls (blocks doc_two_urls) !! "TC-1" = Some "http://b".
Proof.
  apply (last_url_wins (blocks doc_two_urls) 1 (block_with "TC-1" "http://b"));
    [reflexivity | reflexivity |].
  intros k' b' u' Hk Hb'. destruct k' as [|[|k']]; [lia | lia | discriminate Hb'].
Defined.

(** ** The line scan *)

Lemma matches_first_lit a r1 r2 st x :
  x ∈ matches (Cat (Cat (Lit a) r1) r2) st →
  ∃ c s, ms_rest st = String c s ∧ Chr.same_letter a c = true.
Proof.
  simpl. intros (y & _ & (z & _ & Hz)%list_elem_of_bind)%list_elem_of_bind.
  destruct (ms_rest st) as [|c s]; [by apply elem_of_nil in Hz|].
  destruct (Chr.same_letter a c) eqn:Hc; [|by apply elem_of_nil in Hz].
  by exists c, s.
Qed.

Lemma to_lower_space c : Chr.is_space (Chr.to_lower c) = Chr.is_space c.
Proof. destruct c as [[] [] [] [] [] [] [] []]; vm_compute; done. Qed.

Lemma letter_lower_not_space a :
  Chr.is_letter a = true → Chr.is_space (Chr.to_lower a) = false.
Proof. destruct a as [[] [] [] [] [] [] [] []]; vm_compute; done. Qed.

Lemma letter_not_space a c :
  Chr.is_letter a = true → Chr.same_letter a c = true → Chr.is_space c = false.
Proof.
  intros Ha Hc. unfold Chr.same_letter in Hc. apply bool_decide_eq_true in Hc.
  rewrite <- to_lower_space, <- Hc. by apply letter_lower_not_space.
Qed.

Lemma first_lit_nonblank a r1 r2 st x :
  Chr.is_letter a = true → x ∈ matches (Cat (Cat (Lit a) r1) r2) st →
  nonblank (ms_rest st) = true.
Proof.
  intros Ha (c & t & -> & Hc)%matches_first_lit. simpl.
  by rewrite (letter_not_space a c Ha Hc).
Qed.

(** a line with a failure signal on it is not blank *)
Lemma signal_nonblank line sig : signal line = Some sig → nonblank line = true.
Proof.
  unfold signal.
  destruct (search FAILURE_LINE_PATTERN line) as [m|] eqn:E1.
  - intros _. apply search_from_Some in E1 as (w & prev & s & x & -> & Hx & _).
    apply nonblank_app_r. unfold FAILURE_LINE_PATTERN in Hx.
    change (matches (Grp 1 ?r) ?st) with
      ((λ st', MState (ms_prev st') (ms_rest st')
                 (<[1 := consumed (ms_rest st) (ms_rest st')]> (ms_groups st')))
         <$> matches r st) in Hx.
    apply list_elem_of_fmap in Hx as (y & _ & Hy).
    cbn [Seq Str] in Hy.
    by apply (first_lit_nonblank "s" _ _ _ _ eq_refl Hy).
  - destruct (search ALT_FAILURE_PATTERN line) as [a|] eqn:E2; [|done].
    intros _. apply search_from_Some in E2 as (w & prev & s & x & -> & Hx & _).
    apply nonblank_app_r.
    unfold ALT_FAILURE_PATTERN in Hx. cbn [Seq Str] in Hx.
    by apply (first_lit_nonblank "E" _ _ _ _ eq_refl Hx).
Qed.

Lemma scan_window_Some ls lo n id :
  scan_window ls (seq lo n) = Some id →
  ∃ j l, lo ≤ j < lo + n ∧ ls !! j = Some l ∧ line_case_id l = Some id
         ∧ ∀ k l', lo ≤ k < j → ls !! k = Some l' → line_case_id l' = None.
Proof.
  revert lo. induction n as [|n IH]; intros lo; simpl; [done|].
  destruct (ls !! lo) as [l|] eqn:El.
  - destruct (line_case_id l) as [id'|] eqn:Eid.
    + intros [= ->]. exists lo, l. repeat split; [lia..|done|done|]. intros; lia.
    + intros (j & l1 & Hj & Hl1 & Hid & Hfirst)%IH.
      exists j, l1. repeat split; [lia..|done|done|].
      intros k l' Hk Hl'. destruct (decide (k = lo)) as [->|Hne].
      * congruence.
      * apply (Hfirst k); [lia | done].
  - intros (j & l1 & Hj & Hl1 & Hid & Hfirst)%IH.
    exists j, l1. repeat split; [lia..|done|done|].
    intros k l' Hk Hl'. destruct (decide (k = lo)) as [->|Hne].
    * congruence.
    * apply (Hfirst k); [lia | done].
Qed.

Lemma scan_window_None ls lo n :
  scan_window ls (seq lo n) = None →
  ∀ j l, lo ≤ j < lo + n → ls !! j = Some l → line_case_id l = None.
Proof.
  revert lo. induction n as [|n IH]; intros lo; simpl; [intros; lia|].
  intros Hscan j l Hj Hl. destruct (decide (j = lo)) as [->|Hne].
  - rewrite Hl in Hscan. by destruct (line_case_id l).
  - apply (IH (S lo)) with (j := j); [|lia|done].
    destruct (ls !! lo) as [l0|]; [|done]. by destruct (line_case_id l0).
Qed.

Lemma collect_context_slice ls a n :
  a + n ≤ length ls →
  collect_context ls (seq a n)
  = filter (λ l, nonblank l = true) (take n (drop a ls)).
Proof.
  revert a. induction n as [|n IH]; intros a Hlen; simpl; [done|].
  destruct (lookup_lt_is_Some_2 ls a) as [l Hl]; [lia|].
  rewrite Hl, (drop_S _ _ _ Hl). simpl. rewrite filter_cons, IH by lia.
  destruct (nonblank l); by case_decide.
Qed.

(** the two numbers of a terse failure line *)
Lemma alt_groups text a :
  search ALT_FAILURE_PATTERN text = Some a →
  is_number (group 1 a) ∧ is_number (group 2 a).
Proof.
  apply (search_groups (λ g, is_number (group 1 g) ∧ is_number (group 2 g))).
  intros st x Hx. split.
  - destruct (seq_group is_number 1 digits
        [Str "Expected"; ws; Str ":"; ws]
        [Str ";"; ws; Str "But it was"; ws; Str ":"; Grp 2 digits]
        st x digits_consume) as (w & Hw & HQ); [|exact Hx|].
    + group_unused.
    + unfold group. by rewrite Hw.
  - destruct (seq_group is_number 2 digits
        [Str "Expected"; ws; Str ":"; ws; Grp 1 digits;
         Str ";"; ws; Str "But it was"; ws; Str ":"] []
        st x digits_consume) as (w & Hw & HQ); [|exact Hx|].
    + group_unused.
    + unfold group. by rewrite Hw.
Qed.

(** the two status codes of a verbose failure line *)
Lemma failure_groups text m :
  search FAILURE_LINE_PATTERN text = Some m →
  is_number (group 2 m) ∧ is_number (group 3 m).
Proof.
  apply (search_groups (λ g, is_number (group 2 g) ∧ is_number (group 3 g))).
  intros st x Hx. unfold FAILURE_LINE_PATTERN in Hx.
  change (matches (Grp 1 ?r) ?st) with
    ((λ st', MState (ms_prev st') (ms_rest st')
               (<[1 := consumed (ms_rest st) (ms_rest st')]> (ms_groups st')))
       <$> matches r st) in Hx.
  apply list_elem_of_fmap in Hx as (y & -> & Hy). unfold group. simpl.
  rewrite !lookup_insert_ne by done. split.
  - destruct (seq_group is_number 2 digits
        [Str "status code was:"; ws]
        [Str ","; ws; Str "expected:"; ws; Grp 3 digits;
         Str ","; ws; Str "response time in milliseconds:"; ws; Grp 4 digits;
         Str ","; ws; Str "url:"; ws; Grp 5 (Rep Chr.non_space 1);
         Str ","; ws; Str "response:"]
        st y digits_consume) as (w & Hw & HQ); [|exact Hy|].
    + group_unused.
    + by rewrite Hw.
  - destruct (seq_group is_number 3 digits
        [Str "status code was:"; ws; Grp 2 digits; Str ","; ws; Str "expected:"; ws]
        [Str ","; ws; Str "response time in milliseconds:"; ws; Grp 4 digits;
         Str ","; ws; Str "url:"; ws; Grp 5 (Rep Chr.non_space 1);
         Str ","; ws; Str "response:"]
        st y digits_consume) as (w & Hw & HQ); [|exact Hy|].
    + group_unused.
    + by rewrite Hw.
Qed.

Lemma scan_line_inv urls ls i line f :
  scan_line urls ls i line = Some f →
  ∃ status_code expected_code u,
    signal line = Some (status_code, expected_code, u)
    ∧ f = {| status_info := failure_type status_code expected_code;
             testcase := default "" (find_test_case ls i);
             url := resolve_url urls (find_test_case ls i) u;
             error_analysis := join nl (context_lines ls i) |}.
Proof.
  unfold scan_line. destruct (signal line) as [[[sc ec] u]|]; [|done].
  intros [= <-]. by exists sc, ec, u.
Qed.

(** C3. A line on which only the terse form is found gives a record: the
    first captured number N is the expected status and the second, M, the
    observed one, so that status_info is "HTTP M (expected N)"; the URL is
    the sentinel unless the index has one for the record's testcase.  A
    line on which the verbose form is found gives a record with the first
    captured status as the observed one and the second as the expected one.
    A line with neither form gives no record. *)
Theorem signal_forms (urls : gmap string string) (ls : list string) (i : nat)
    (line : string) :
  (∀ a, search FAILURE_LINE_PATTERN line = None →
        search ALT_FAILURE_PATTERN line = Some a →
        ∃ f, scan_line urls ls i line = Some f
             ∧ is_number (group 1 a) ∧ is_number (group 2 a)
             ∧ status_info f
               = "HTTP " +:+ group 2 a +:+ " (expected " +:+ group 1 a +:+ ")"
             ∧ (urls !! testcase f = None → url f = "URL Not Found"))
  ∧ (∀ m, search FAILURE_LINE_PATTERN line = Some m →
        ∃ f, scan_line urls ls i line = Some f
             ∧ is_number (group 2 m) ∧ is_number (group 3 m)
             ∧ status_info f
               = "HTTP " +:+ group 2 m +:+ " (expected " +:+ group 3 m +:+ ")")
  ∧ (search FAILURE_LINE_PATTERN line = None →
     search ALT_FAILURE_PATTERN line = None →
     scan_line urls ls i line = None).
Proof.
  unfold scan_line, signal. split; [|split].
  - intros a Hnone Ha. destruct (alt_groups line a Ha) as [H1 H2].
    rewrite Hnone, Ha. eexists. split; [done|].
    split; [done|]. split; [done|]. split; [done|]. simpl.
    unfold resolve_url. destruct (find_test_case ls i) as [id|]; simpl; [|done].
    destruct (truthy id); [|done]. by intros ->.
  - intros m Hm. destruct (failure_groups line m Hm) as [H2 H3].
    rewrite Hm. eexists. by split.
  - by intros -> ->.
Qed.

Lemma signal_forms_witness :
  (∃ f, scan_line ∅ (lines doc_lone_signal) 0 "Expected : 200; But it was :500"
        = Some f
        ∧ status_info f = "HTTP 500 (expected 200)"
        ∧ ((∅ : gmap string string) !! testcase f = None → url f = "URL Not Found"))
  ∧ (∃ f, scan_line ∅ (lines doc_verbose) 0 verbose_line = Some f
          ∧ status_info f = "HTTP 404 (expected 200)").
Proof.
  split.
  - destruct (search ALT_FAILURE_PATTERN "Expected : 200; But it was :500")
      as [a|] eqn:E; [|by vm_compute in E].
    destruct (proj1 (signal_forms ∅ (lines doc_lone_signal) 0
                "Expected : 200; But it was :500") a) as (f & Hf & _ & _ & Hs & Hu);
      [by vm_compute | done |].
    exists f. split; [done|]. split; [|done]. rewrite Hs.
    vm_compute in E. injection E as <-. by vm_compute.
  - destruct (search FAILURE_LINE_PATTERN verbose_line) as [m|] eqn:E;
      [|by vm_compute in E].
    destruct (proj1 (proj2 (signal_forms ∅ (lines doc_verbose) 0 _)) m E)
      as (f & Hf & _ & _ & Hs).
    exists f. split; [done|]. rewrite Hs.
    vm_compute in E. injection E as <-. by vm_compute.
Defined.

(** C4. The testcase of the record for a signal at line [i] comes from the
    window [max(0, i-5) <= j < min(len, i+15)]: either no line of the window
    gives an identifier and the testcase is empty, or the testcase is the
    identifier of the first line of the window that gives one.  No line
    outside the window is looked at. *)
Theorem window_binding (urls : gmap string string) (ls : list string) (i : nat)
    (line : string) (f : FailureRecord) :
  scan_line urls ls i line = Some f →
  let lo := Nat.max 0 (i - 5) in
  let hi := Nat.min (length ls) (i + 15) in
  (testcase f = ""
   ∧ ∀ j l, lo ≤ j < hi → ls !! j = Some l → line_case_id l = None)
  ∨ (∃ j l, lo ≤ j < hi ∧ ls !! j = Some l
            ∧ line_case_id l = Some (testcase f)
            ∧ ∀ k l', lo ≤ k < j → ls !! k = Some l' → line_case_id l' = None).
Proof.
  intros (sc & ec & u & _ & ->)%scan_line_inv lo hi. simpl.
  unfold find_test_case, py_range. fold lo hi.
  destruct (scan_window ls (seq lo (hi - lo))) as [id|] eqn:E.
  - right. apply scan_window_Some in E as (j & l & Hj & Hl & Hid & Hfirst).
    exists j, l. repeat split; [lia..|done|done|done].
  - left. split; [done|]. intros j l Hj. apply (scan_window_None _ _ _ E). lia.
Qed.

Lemma window_binding_witness :
  ∃ f, scan_line ∅ (lines doc_verbose) 0 verbose_line = Some f
    ∧ ((testcase f = ""
        ∧ ∀ j l, Nat.max 0 (0 - 5) ≤ j < Nat.min (length (lines doc_verbose)) (0 + 15) →
                 lines doc_verbose !! j = Some l → line_case_id l = None)
       ∨ (∃ j l, Nat.max 0 (0 - 5) ≤ j < Nat.min (length (lines doc_verbose)) (0 + 15)
                 ∧ lines doc_verbose !! j = Some l
                 ∧ line_case_id l = Some (testcase f)
                 ∧ ∀ k l', Nat.max 0 (0 - 5) ≤ k < j →
                           lines doc_verbose !! k = Some l' → line_case_id l' = None)).
Proof.
  eexists. split; [by vm_compute|].
  apply (window_binding ∅ (lines doc_verbose) 0 verbose_line). by vm_compute.
Defined.

(** C9. The error_analysis of the record for a signal at line [i] is the
    newline-join of the lines [i <= j < min(len, i+8)] that are not blank,
    in their order: at most 8 lines, the first of which is the signal line
    itself, which is not blank. *)
Theorem error_analysis_window (urls : gmap string string) (ls : list string)
    (i : nat) (line : string) (f : FailureRecord) :
  ls !! i = Some line → scan_line urls ls i line = Some f →
  let ctx := filter (λ l, nonblank l = true)
               (take (Nat.min (length ls) (i + 8) - i) (drop i ls)) in
  error_analysis f = join nl ctx
  ∧ length ctx ≤ 8
  ∧ (∃ rest, ctx = line :: rest)
  ∧ nonblank line = true.
Proof.
  intros Hi (sc & ec & u & Hsig & ->)%scan_line_inv ctx. simpl.
  assert (Hlt : i < length ls) by (by apply lookup_lt_Some in Hi).
  assert (Hline : nonblank line = true) by (by apply signal_nonblank in Hsig).
  repeat split; [| | |done].
  - unfold context_lines, py_range.
    replace (Nat.max 0 i) with i by lia.
    by rewrite collect_context_slice by lia.
  - subst ctx. etrans; [apply length_filter|]. rewrite length_take. lia.
  - subst ctx. rewrite (drop_S _ _ _ Hi).
    replace (Nat.min (length ls) (i + 8) - i) with (S (Nat.min (length ls) (i + 8) - i - 1))
      by lia.
    simpl. rewrite filter_cons. case_decide; [|done]. eauto.
Qed.

Lemma error_analysis_window_witness :
  ∃ f, let ls := lines doc_verbose in
       let line := verbose_line in
       let ctx := filter (λ l, nonblank l = true)
                    (take (Nat.min (length ls) (0 + 8) - 0) (drop 0 ls)) in
       scan_line ∅ ls 0 line = Some f
       ∧ error_analysis f = join nl ctx
       ∧ length ctx ≤ 8
       ∧ (∃ rest, ctx = line :: rest)
       ∧ nonblank line = true.
Proof.
  eexists. split; [by vm_compute|].
  apply (error_analysis_window ∅ (lines doc_verbose) 0); [reflexivity | by vm_compute].
Defined.

(** ** The records before de-duplication *)

Lemma elem_of_scan_from urls ls i todo f :
  f ∈ scan_from urls ls i todo → ∃ i' line, scan_line urls ls i' line = Some f.
Proof.
  revert i. induction todo as [|line todo IH]; intros i; simpl.
  - by intros ?%elem_of_nil.
  - destruct (scan_line urls ls i line) as [f'|] eqn:E; [|apply IH].
    intros [->|Hin]%elem_of_cons; [eauto | by eapply IH].
Qed.

Lemma elem_of_orphans urls reported bs f :
  f ∈ orphans urls reported bs →
  ∃ b id, b ∈ bs ∧ case_id_of (case_text b) = Some id ∧ id ≠ ""
          ∧ f = orphan_record urls b id.
Proof.
  revert reported. induction bs as [|b bs IH]; intros reported; simpl.
  - by intros ?%elem_of_nil.
  - assert (Hrest : ∀ rep', f ∈ orphans urls rep' bs →
      ∃ b' id, b' ∈ b :: bs ∧ case_id_of (case_text b') = Some id ∧ id ≠ ""
               ∧ f = orphan_record urls b' id).
    { intros rep' (b' & id & Hb' & H)%IH. exists b', id. split; [by right | done]. }
    destruct (case_id_of (case_text b)) as [id|] eqn:E; [|apply Hrest].
    destruct (truthy id) eqn:Hid; simpl; [|apply Hrest].
    case_bool_decide; [|apply Hrest].
    intros [->|Hin]%elem_of_cons; [|by eapply Hrest].
    exists b, id. repeat split; [by left | done |].
    unfold truthy in Hid. by apply bool_decide_eq_true in Hid.
Qed.

Lemma find_test_case_chars ls i id :
  find_test_case ls i = Some id → str_all id_char id = true.
Proof.
  unfold find_test_case, py_range.
  intros (j & l & _ & _ & Hid & _)%scan_window_Some.
  rewrite line_case_id_eq in Hid. by apply case_id_of_chars in Hid.
Qed.

(** the testcase of a record is made of identifier characters *)
Lemma results_testcase_chars d f :
  f ∈ results_of d → str_all id_char (testcase f) = true.
Proof.
  unfold results_of. intros [Hin|Hin]%elem_of_app.
  - apply elem_of_scan_from in Hin as (i & line & Hf).
    apply scan_line_inv in Hf as (sc & ec & u & _ & ->). simpl.
    destruct (find_test_case (lines d) i) as [id|] eqn:E; [|done].
    by apply find_test_case_chars in E.
  - apply elem_of_orphans in Hin as (b & id & _ & Hid & _ & ->). simpl.
    by apply case_id_of_chars in Hid.
Qed.

Lemma elem_of_scan_from_index urls ls i todo f :
  f ∈ scan_from urls ls i todo ↔
  ∃ k line, todo !! k = Some line ∧ scan_line urls ls (i + k) line = Some f.
Proof.
  revert i. induction todo as [|line todo IH]; intros i; simpl.
  - split; [by intros ?%elem_of_nil | by intros (k & l & ? & _)].
  - assert (Hshift : (∃ k l, todo !! k = Some l ∧ scan_line urls ls (S i + k) l = Some f)
      → ∃ k l, (line :: todo) !! k = Some l ∧ scan_line urls ls (i + k) l = Some f).
    { intros (k & l & Hk & Hl). exists (S k), l. split; [done|].
      by replace (i + S k) with (S i + k) by lia. }
    assert (Hback : ∀ k l, (line :: todo) !! k = Some l →
      scan_line urls ls (i + k) l = Some f →
      (k = 0 ∧ l = line ∧ scan_line urls ls i line = Some f)
      ∨ f ∈ scan_from urls ls (S i) todo).
    { intros [|k] l Hk Hl.
      - left. simpl in Hk. injection Hk as ->. by rewrite Nat.add_0_r in Hl.
      - right. apply IH. exists k, l. split; [done|].
        by replace (S i + k) with (i + S k) by lia. }
    destruct (scan_line urls ls i line) as [f'|] eqn:E.
    + rewrite elem_of_cons, IH. split.
      * intros [->|H]; [|by apply Hshift].
        exists 0, line. by rewrite Nat.add_0_r.
      * intros (k & l & Hk & Hl).
        destruct (Hback k l Hk Hl) as [(_ & _ & [= ->])|H]; [by left|].
        right. by apply IH.
    + rewrite IH. split; [apply Hshift|].
      intros (k & l & Hk & Hl).
      destruct (Hback k l Hk Hl) as [(_ & _ & [=])|H]. by apply IH.
Qed.

(** the records of the line scan are those of the signals found, one for
    each line with a signal *)
Lemma elem_of_scan_failures urls ls f :
  f ∈ scan_failures urls ls ↔
  ∃ i line, ls !! i = Some line ∧ scan_line urls ls i line = Some f.
Proof. unfold scan_failures. by rewrite elem_of_scan_from_index. Qed.

(** ** De-duplication *)

Lemma truthy_spec s : truthy s = true ↔ s ≠ "".
Proof. unfold truthy. apply bool_decide_eq_true. Qed.

Lemma has_key_spec k l : has_key k l = true ↔ k ∈ l.*1.
Proof. unfold has_key. apply bool_decide_eq_true. Qed.

Lemma unique_failures_snoc rs f :
  unique_failures (dedup_loop (rs ++ [f]))
  = if truthy (testcase f) then
      if has_key (unique_key f) (unique_failures (dedup_loop rs))
      then unique_failures (dedup_loop rs)
      else unique_failures (dedup_loop rs) ++ [(unique_key f, f)]
    else unique_failures (dedup_loop rs).
Proof.
  unfold dedup_loop. rewrite foldl_app. simpl. unfold dedup_step.
  destruct (truthy (testcase f)); [|done].
  by destruct (has_key _ _).
Qed.

(** What the loop of step 4 leaves in [unique_failures]: the keyed records,
    each under its key and only the first for its key, with no key twice
    and no key of the input missing. *)
Lemma dedup_loop_spec rs :
  (∀ k f, (k, f) ∈ unique_failures (dedup_loop rs) →
     k = unique_key f ∧ testcase f ≠ ""
     ∧ ∃ j, rs !! j = Some f
            ∧ ∀ j' g, j' < j → rs !! j' = Some g → testcase g ≠ "" →
                      unique_key g ≠ k)
  ∧ NoDup (unique_failures (dedup_loop rs)).*1
  ∧ (∀ f, f ∈ rs → testcase f ≠ "" →
       unique_key f ∈ (unique_failures (dedup_loop rs)).*1).
Proof.
  induction rs as [|f rs (IHa & IHb & IHc)] using rev_ind.
  { split; [|split].
    - by intros k f ?%elem_of_nil.
    - constructor.
    - by intros f ?%elem_of_nil. }
  rewrite unique_failures_snoc.
  assert (Hold : ∀ k g, (k, g) ∈ unique_failures (dedup_loop rs) →
     k = unique_key g ∧ testcase g ≠ ""
     ∧ ∃ j, (rs ++ [f]) !! j = Some g
            ∧ ∀ j' g', j' < j → (rs ++ [f]) !! j' = Some g' → testcase g' ≠ "" →
                       unique_key g' ≠ k).
  { intros k g (Hk & Ht & j & Hj & Hfirst)%IHa. split; [done|]. split; [done|].
    exists j. split; [by apply lookup_app_l_Some|].
    intros j' g' Hlt Hj'. apply (Hfirst j'); [done|].
    apply lookup_lt_Some in Hj. by rewrite lookup_app_l in Hj' by lia. }
  destruct (truthy (testcase f)) eqn:Ht.
  - apply truthy_spec in Ht.
    destruct (has_key (unique_key f) (unique_failures (dedup_loop rs))) eqn:Hkey.
    + apply has_key_spec in Hkey. split; [done|]. split; [done|].
      intros g [Hg| ->%list_elem_of_singleton]%elem_of_app Hgt; [by apply IHc | done].
    + assert (Hfresh : unique_key f ∉ (unique_failures (dedup_loop rs)).*1).
      { intros Hin%has_key_spec. congruence. }
      split; [|split].
      * intros k g [Hg|[= -> ->]%list_elem_of_singleton]%elem_of_app; [by apply Hold|].
        split; [done|]. split; [done|]. exists (length rs).
        split; [by apply list_lookup_middle|].
        intros j' g' Hlt Hj' Hg' Heq. rewrite lookup_app_l in Hj' by done.
        apply Hfresh. rewrite <- Heq. apply IHc; [|done].
        by apply list_elem_of_lookup_2 in Hj'.
      * rewrite fmap_app. simpl. apply NoDup_app. split; [done|]. split.
        -- intros k Hk ->%list_elem_of_singleton. done.
        -- apply NoDup_singleton.
      * intros g Hg Hgt. rewrite fmap_app. simpl. apply elem_of_app.
        apply elem_of_app in Hg as [Hg| ->%list_elem_of_singleton];
          [left; by apply IHc | right; by left].
  - split; [done|]. split; [done|].
    intros g [Hg| ->%list_elem_of_singleton]%elem_of_app Hgt; [by apply IHc|].
    apply truthy_spec in Hgt. congruence.
Qed.

Lemma unique_failures_fixed (l : list (string * FailureRecord)) :
  (∀ k f, (k, f) ∈ l → k = unique_key f ∧ testcase f ≠ "") →
  NoDup l.*1 →
  unique_failures (dedup_loop l.*2) = l.
Proof.
  induction l as [|[k f] l IH] using rev_ind; intros Hl Hnd; [done|].
  rewrite fmap_app in Hnd. apply NoDup_app in Hnd as (Hnd & Hdisj & _).
  assert (Hl' : ∀ k f, (k, f) ∈ l → k = unique_key f ∧ testcase f ≠ "").
  { intros k' f' Hin. apply Hl, elem_of_app. by left. }
  destruct (Hl k f) as [-> Ht]; [apply elem_of_app; right; by left|].
  rewrite fmap_app. simpl. rewrite unique_failures_snoc, (IH Hl' Hnd).
  apply truthy_spec in Ht. rewrite Ht.
  destruct (has_key (unique_key f) l) eqn:Hk; [|done].
  apply has_key_spec in Hk. exfalso. apply (Hdisj _ Hk). simpl. by left.
Qed.

Lemma NoDup_fst_agree {A B} (l : list (A * B)) k a b :
  NoDup l.*1 → (k, a) ∈ l → (k, b) ∈ l → a = b.
Proof.
  induction l as [|[k' c] l IH]; simpl; [by intros _ ?%elem_of_nil|].
  intros [Hk' Hnd]%NoDup_cons Ha Hb.
  assert (Hin : ∀ v, (k, v) ∈ l → k ∈ l.*1).
  { intros v Hv. apply list_elem_of_fmap. by exists (k, v). }
  apply elem_of_cons in Ha as [Ha|Ha]; apply elem_of_cons in Hb as [Hb|Hb].
  - congruence.
  - injection Ha as -> ->. exfalso. eauto.
  - injection Hb as -> ->. exfalso. eauto.
  - by apply IH.
Qed.

Lemma failures_deduplicate rs f :
  f ∈ failures (deduplicate rs) ↔ (unique_key f, f) ∈ unique_failures (dedup_loop rs).
Proof.
  simpl. rewrite list_elem_of_fmap. split.
  - intros ([k g] & -> & Hin). simpl.
    by destruct (proj1 (dedup_loop_spec rs) k g Hin) as [-> _].
  - intros Hin. by exists (unique_key f, f).
Qed.

(** an underscore is not an identifier character, so a key splits into
    testcase and status_info in one way only *)
Lemma unique_key_inj f g :
  str_all id_char (testcase f) = true → str_all id_char (testcase g) = true →
  unique_key f = unique_key g → pair_of f = pair_of g.
Proof.
  unfold unique_key, pair_of.
  generalize (status_info f) (status_info g). intros s1 s2.
  generalize (testcase g). induction (testcase f) as [|c t IH]; intros [|c' t'].
  - by intros _ _ [= ->].
  - intros _ Hc [= <- _]. by vm_compute in Hc.
  - intros Hc _ [= -> _]. by vm_compute in Hc.
  - intros [_ Ht]%andb_true_iff [_ Ht']%andb_true_iff [= -> Heq].
    by injection (IH _ Ht Ht' Heq) as -> ->.
Qed.

(** every record of the report is one of the records step 4 was given *)
Lemma failures_in_results rs f : f ∈ failures (deduplicate rs) → f ∈ rs.
Proof.
  intros Hin%failures_deduplicate.
  destruct (proj1 (dedup_loop_spec rs) _ _ Hin) as (_ & _ & j & Hj & _).
  by apply list_elem_of_lookup_2 in Hj.
Qed.

(** no record of the report has an empty testcase *)
Lemma failures_keyed rs f : f ∈ failures (deduplicate rs) → testcase f ≠ "".
Proof.
  intros Hin%failures_deduplicate.
  by destruct (proj1 (dedup_loop_spec rs) _ _ Hin) as (_ & Ht & _).
Qed.

(** C5. If the index maps identifier [X] to [U], every record of the final
    output whose testcase is [X] has the URL [U], whether it comes from a
    failure line (whose inline URL is overridden) or from the orphan pass. *)
Theorem url_precedence (d : Document) (X U : string) (f : FailureRecord) :
  build_urls (blocks d) !! X = Some U →
  f ∈ failures (parse_single_file d) →
  testcase f = X →
  url f = U.
Proof.
  intros HX Hf%failures_in_results Ht. unfold results_of in Hf.
  apply elem_of_app in Hf as [Hf|Hf].
  - apply elem_of_scan_from in Hf as (i & line & Hf).
    apply scan_line_inv in Hf as (sc & ec & u & _ & ->). simpl in *.
    destruct (find_test_case (lines d) i) as [id|]; simpl in *.
    + subst id. destruct (truthy X) eqn:HXt.
      * by rewrite HX.
      * assert (X = "") as ->.
        { unfold truthy in HXt. apply bool_decide_eq_false in HXt.
          by destruct (decide (X = "")). }
        by rewrite build_urls_empty_key in HX.
    + subst X. by rewrite build_urls_empty_key in HX.
  - apply elem_of_orphans in Hf as (b & id & _ & _ & _ & ->). simpl in *.
    subst id. by rewrite HX.
Qed.

Lemma url_precedence_witness :
  ∃ f, f ∈ failures (parse_single_file doc_repeated)
       ∧ testcase f = "TC-7" ∧ url f = "http://b/7".
Proof.
  exists {| status_info := "HTTP 500 (expected 200)"; testcase := "TC-7";
            url := "http://b/7";
            error_analysis := join nl (lines doc_repeated) |}.
  assert (Hin : {| status_info := "HTTP 500 (expected 200)"; testcase := "TC-7";
                   url := "http://b/7";
                   error_analysis := join nl (lines doc_repeated) |}
                ∈ failures (parse_single_file doc_repeated)).
  { vm_compute. by left. }
  split; [done|]. split; [done|].
  apply (url_precedence doc_repeated "TC-7" "http://b/7"); [by vm_compute | done | done].
Defined.

(** C6. No two records of the final output have the same testcase and
    status_info.  For every keyed record handed to step 4, the first record
    of that sequence (scan records, then orphan records) with the same
    testcase and status_info is in the output, and it is the only record of
    the output with that pair. *)
Theorem first_record_per_key (d : Document) :
  NoDup (pair_of <$> failures (parse_single_file d))
  ∧ ∀ i f, results_of d !! i = Some f → testcase f ≠ "" →
      ∃ j f0, j ≤ i ∧ results_of d !! j = Some f0 ∧ pair_of f0 = pair_of f
        ∧ (∀ j' g, j' < j → results_of d !! j' = Some g → pair_of g ≠ pair_of f)
        ∧ f0 ∈ failures (parse_single_file d)
        ∧ ∀ g, g ∈ failures (parse_single_file d) → pair_of g = pair_of f → g = f0.
Proof.
  unfold parse_single_file. set (rs := results_of d).
  destruct (dedup_loop_spec rs) as (Ha & Hb & Hc).
  assert (Hkeys : unique_key <$> failures (deduplicate rs)
                  = (unique_failures (dedup_loop rs)).*1).
  { simpl. rewrite <- list_fmap_compose. apply list_fmap_ext.
    intros _ [k g] Hin%list_elem_of_lookup_2. simpl.
    by destruct (Ha k g Hin) as [-> _]. }
  split.
  - apply (NoDup_fmap_1 (λ p : string * string, p.1 +:+ "_" +:+ p.2)).
    rewrite <- list_fmap_compose.
    change (NoDup (unique_key <$> failures (deduplicate rs))). by rewrite Hkeys.
  - intros i f Hi Ht.
    assert (Hf : f ∈ rs) by (by apply list_elem_of_lookup_2 in Hi).
    destruct (proj1 (list_elem_of_fmap _ _ _) (Hc f Hf Ht)) as ([k f0] & Hk & Hin).
    simpl in Hk. subst k.
    destruct (Ha _ _ Hin) as (Hkey & Ht0 & j & Hj & Hfirst).
    assert (Hpair : pair_of f0 = pair_of f).
    { apply unique_key_inj; [| |done]; apply (results_testcase_chars d);
        [by apply list_elem_of_lookup_2 in Hj | done]. }
    exists j, f0. split; [|split; [done|split; [done|split; [|split]]]].
    + destruct (decide (j ≤ i)) as [|Hgt]; [done|]. exfalso.
      apply (Hfirst i f); [lia | done | done | done].
    + intros j' g Hlt Hj' Hg. apply (Hfirst j' g Hlt Hj').
      * unfold pair_of in Hg. injection Hg as Hg _. by rewrite Hg.
      * unfold pair_of in Hg. injection Hg as Hg1 Hg2.
        unfold unique_key. by rewrite Hg1, Hg2.
    + apply failures_deduplicate. by rewrite <- Hkey.
    + intros g Hg%failures_deduplicate Hgp.
      assert (Hgk : unique_key g = unique_key f).
      { unfold pair_of in Hgp. injection Hgp as Hg1 Hg2.
        unfold unique_key. by rewrite Hg1, Hg2. }
      rewrite Hgk in Hg. by apply (NoDup_fst_agree _ _ _ _ Hb Hg Hin).
Qed.

Lemma first_record_per_key_witness :
  ∃ f f0 : FailureRecord,
    results_of doc_repeated !! 1 = Some f
    ∧ results_of doc_repeated !! 0 = Some f0
    ∧ f ≠ f0 ∧ pair_of f0 = pair_of f
    ∧ f0 ∈ failures (parse_single_file doc_repeated)
    ∧ ∀ g, g ∈ failures (parse_single_file doc_repeated) →
           pair_of g = pair_of f → g = f0.
Proof.
  destruct (results_of doc_repeated !! 1) as [f|] eqn:Ef; [|by vm_compute in Ef].
  destruct (proj2 (first_record_per_key doc_repeated) 1 f Ef)
    as (j & f0 & Hj & Hf0 & Hp & Hfirst & Hin & Huniq).
  { vm_compute in Ef. injection Ef as <-. by vm_compute. }
  exists f, f0.
  assert (j = 0) as ->.
  { destruct j as [|j]; [done|]. exfalso.
    destruct (results_of doc_repeated !! 0) as [g|] eqn:Eg; [|by vm_compute in Eg].
    apply (Hfirst 0 g); [lia | done |].
    vm_compute in Ef, Eg. injection Ef as <-. injection Eg as <-. by vm_compute. }
  split; [done|]. split; [done|]. split; [|done].
  vm_compute in Ef, Hf0. injection Ef as <-. injection Hf0 as <-. by vm_compute.
Defined.

(** C8. De-duplication is idempotent: run on the failures of its own
    output it returns that output again, with the same failures, the same
    total_unique and the same status_summary. *)
Theorem deduplicate_idempotent (rs : list FailureRecord) :
  deduplicate (failures (deduplicate rs)) = deduplicate rs.
Proof.
  destruct (dedup_loop_spec rs) as (Ha & Hb & _).
  unfold deduplicate. simpl.
  rewrite unique_failures_fixed; [done| |done].
  intros k f (-> & Ht & _)%Ha. done.
Qed.

(** * Further properties of the extraction *)

(** ** What the patterns capture *)

Lemma matches_consumes_len P r st x :
  atoms_in P r → x ∈ matches r st →
  ∃ w, ms_rest st = w +:+ ms_rest x ∧ str_all P w = true
       ∧ min_len r ≤ String.length w.
Proof.
  revert st x. induction r as [a|cls least|r IH| |k r IH|r1 IH1 r2 IH2|];
    intros st x Hat; simpl in *.
  - destruct (ms_rest st) as [|c s]; [by intros ?%elem_of_nil|].
    destruct (Chr.same_letter a c) eqn:Hc; [|by intros ?%elem_of_nil].
    intros ->%list_elem_of_singleton. exists (String c ""). simpl.
    by rewrite (Hat _ Hc).
  - intros (w & -> & Hw & Hlen & _)%elem_of_rep. exists w. split; [done|].
    split; [by apply (str_all_impl cls) | done].
  - intros [Hin| ->%list_elem_of_singleton]%elem_of_app.
    + destruct (IH _ _ Hat Hin) as (w & E & Hw & _). exists w.
      split; [done|]. split; [done|lia].
    + exists "". split; [done|]. split; [done|]. simpl. lia.
  - destruct (at_boundary st); [|by intros ?%elem_of_nil].
    intros ->%list_elem_of_singleton. by exists "".
  - intros (y & -> & Hy)%list_elem_of_fmap. simpl. by apply IH.
  - destruct Hat as [H1 H2]. intros (y & Hx & Hy)%list_elem_of_bind.
    destruct (IH1 _ _ H1 Hy) as (w1 & E1 & Hw1 & L1).
    destruct (IH2 _ _ H2 Hx) as (w2 & E2 & Hw2 & L2).
    exists (w1 +:+ w2). rewrite str_app_assoc, <- E2, <- E1.
    rewrite str_all_app, Hw1, Hw2, str_length_app. split; [done|]. split; [done|lia].
  - intros ->%list_elem_of_singleton. by exists "".
Qed.

Lemma atoms_in_any r : atoms_in (λ _, true) r.
Proof. induction r; simpl; auto. Qed.

(** a match ends at a suffix of the text it started on *)
Lemma matches_suffix r st x :
  x ∈ matches r st → ∃ w, ms_rest st = w +:+ ms_rest x.
Proof.
  intros Hx. destruct (matches_consumes (λ _, true) r st x (atoms_in_any r) Hx)
    as (w & E & _). by exists w.
Qed.

(** as [seq_group], with the place of the captured text in the subject *)
Lemma seq_group_at (Q : string → Prop) n r pre post st x :
  (∀ st' y, y ∈ matches r st' → ∃ w, ms_rest st' = w +:+ ms_rest y ∧ Q w) →
  n ∉ grp_names (Seq post) →
  x ∈ matches (Seq (pre ++ Grp n r :: post)) st →
  ∃ u w v, ms_rest st = u +:+ w +:+ v ∧ ms_groups x !! n = Some w ∧ Q w.
Proof.
  intros Hr Hpost. revert st. induction pre as [|a pre IH]; intros st.
  - change (x ∈ matches (Grp n r) st ≫= matches (Seq post) →
            ∃ u w v, ms_rest st = u +:+ w +:+ v ∧ ms_groups x !! n = Some w ∧ Q w).
    intros (y & Hx & Hy)%list_elem_of_bind.
    change (y ∈ (λ st', MState (ms_prev st') (ms_rest st')
                   (<[n := consumed (ms_rest st) (ms_rest st')]> (ms_groups st')))
                <$> matches r st) in Hy.
    apply list_elem_of_fmap in Hy as (z & -> & Hz).
    destruct (Hr _ _ Hz) as (w & E & HQ).
    exists "", w, (ms_rest z). split; [done|]. split; [|done].
    rewrite (matches_frame _ n _ _ Hpost Hx). simpl.
    by rewrite lookup_insert_eq, E, consumed_app.
  - change (x ∈ matches a st ≫= matches (Seq (pre ++ Grp n r :: post)) →
            ∃ u w v, ms_rest st = u +:+ w +:+ v ∧ ms_groups x !! n = Some w ∧ Q w).
    intros (y & Hx & Hy)%list_elem_of_bind.
    destruct (matches_suffix _ _ _ Hy) as (w0 & E0).
    destruct (IH y Hx) as (u & w & v & E & Hw & HQ).
    exists (w0 +:+ u), w, v. split; [|done]. by rewrite E0, E, str_app_assoc.
Qed.

(** the whole match of a pattern that is one group *)
Lemma grp_at (Q : string → Prop) n r st x :
  (∀ st' y, y ∈ matches r st' → ∃ w, ms_rest st' = w +:+ ms_rest y ∧ Q w) →
  x ∈ matches (Grp n r) st →
  ∃ w v, ms_rest st = w +:+ v ∧ ms_groups x !! n = Some w ∧ Q w.
Proof.
  intros Hr. simpl. intros (z & -> & Hz)%list_elem_of_fmap.
  destruct (Hr _ _ Hz) as (w & E & HQ). exists w, (ms_rest z).
  split; [done|]. split; [|done]. simpl. by rewrite lookup_insert_eq, E, consumed_app.
Qed.

(** what [search] captures in a group lies in the text searched *)
Lemma search_substring (Q : string → Prop) r n text m :
  (∀ st x, x ∈ matches r st →
     ∃ u w v, ms_rest st = u +:+ w +:+ v ∧ ms_groups x !! n = Some w ∧ Q w) →
  search r text = Some m → substring (group n m) text ∧ Q (group n m).
Proof.
  intros Hr (w0 & prev & s & x & -> & Hx & ->)%search_from_Some.
  destruct (Hr _ _ Hx) as (u & w & v & E & Hw & HQ). simpl in E. subst s.
  unfold group. rewrite Hw. simpl. split; [|done].
  exists (w0 +:+ u), v. by rewrite str_app_assoc.
Qed.

Lemma ident_consume_len k st y :
  1 ≤ k → y ∈ matches (ident k) st →
  ∃ w, ms_rest st = w +:+ ms_rest y ∧ is_ident w.
Proof.
  intros Hk Hy.
  destruct (matches_consumes_len id_char _ _ _ (ident_atoms k) Hy) as (w & E & Hw & Hlen).
  exists w. split; [done|]. split; [done|]. simpl in Hlen. lia.
Qed.

Lemma case_id_of_shape text id :
  case_id_of text = Some id → substring id text ∧ is_ident id.
Proof.
  unfold case_id_of.
  destruct (search FEATURE_LINE_PATTERN text) as [m|] eqn:E1.
  { intros [= <-]. revert E1. apply search_substring. intros st x.
    apply (seq_group_at is_ident 1 (ident 1) [] [Str ".feature"]).
    - intros st' y. by apply ident_consume_len.
    - group_unused. }
  destruct (search TEST_CASE_PATTERN text) as [m|] eqn:E2.
  { intros [= <-]. revert E2. apply search_substring. intros st x.
    apply (seq_group_at is_ident 1 (ident 1) [Bound] [Bound]).
    - intros st' y. by apply ident_consume_len.
    - group_unused. }
  destruct (search ADDITIONAL_PATTERN text) as [m|] eqn:E3; [|done].
  intros [= <-]. revert E3. apply search_substring. intros st x.
  apply (seq_group_at is_ident 1 (ident 2) [Bound] [Bound]).
  - intros st' y. apply ident_consume_len. lia.
  - group_unused.
Qed.

(** X1. An identifier read off a text (a block's text or a line) is a piece
    of that text, is made of letters, digits and hyphens only, and has at
    least three characters; in particular it is never empty. *)
Theorem identifier_shape (text id : string) :
  case_id_of text = Some id →
  substring id text ∧ str_all id_char id = true ∧ 3 ≤ String.length id.
Proof. intros (Hsub & Hall & Hlen)%case_id_of_shape. done. Qed.

Lemma identifier_shape_witness :
  substring "TC-1234" "TC-1234 running"
  ∧ str_all id_char "TC-1234" = true ∧ 3 ≤ String.length "TC-1234".
Proof. apply (identifier_shape "TC-1234 running" "TC-1234"). by vm_compute. Defined.

Lemma to_lower_url_char c : Chr.url_char (Chr.to_lower c) = Chr.url_char c.
Proof. destruct c as [[] [] [] [] [] [] [] []]; vm_compute; done. Qed.

Lemma lit_url_char a c :
  Chr.url_char a = true → Chr.same_letter a c = true → Chr.url_char c = true.
Proof.
  intros Ha Hc. unfold Chr.same_letter in Hc. apply bool_decide_eq_true in Hc.
  by rewrite <- to_lower_url_char, <- Hc, to_lower_url_char.
Qed.

Lemma url_atoms :
  atoms_in Chr.url_char
    (Seq [Str "http"; Opt (Lit "s"); Str "://"; Rep Chr.url_char 1]).
Proof. simpl. repeat split; try done; intros c; by apply lit_url_char. Qed.

Lemma url_consume st y :
  y ∈ matches (Seq [Str "http"; Opt (Lit "s"); Str "://"; Rep Chr.url_char 1]) st →
  ∃ w, ms_rest st = w +:+ ms_rest y ∧ is_url w.
Proof.
  intros Hy.
  destruct (matches_consumes_len Chr.url_char _ _ _ url_atoms Hy)
    as (w & E & Hw & Hlen).
  exists w. split; [done|]. split; [done|]. simpl in Hlen. lia.
Qed.

Lemma url_search_shape text m :
  search CUCUMBER_URL_PATTERN text = Some m →
  substring (group 1 m) text ∧ is_url (group 1 m).
Proof.
  apply search_substring. intros st x Hx.
  destruct (grp_at is_url 1 _ st x url_consume Hx) as (w & v & E & Hw & HQ).
  exists "", w, v. done.
Qed.

(** X2. The URL of a block is taken from the first of its output texts
    that has one: it is a piece of that text, free of whitespace and
    quotes, at least eight characters long, and no earlier output text
    contains a URL. *)
Theorem first_url_shape (outs : list string) (u : string) :
  first_url outs = Some u →
  ∃ k t, outs !! k = Some t ∧ substring u t
         ∧ str_all Chr.url_char u = true ∧ 8 ≤ String.length u
         ∧ ∀ k' t', k' < k → outs !! k' = Some t' →
                    search CUCUMBER_URL_PATTERN t' = None.
Proof.
  induction outs as [|t outs IH]; simpl; [done|].
  destruct (search CUCUMBER_URL_PATTERN t) as [m|] eqn:E.
  - intros [= <-]. destruct (url_search_shape t m E) as (Hsub & Hall & Hlen).
    exists 0, t. repeat split; [done..|]. intros; lia.
  - intros (k & t0 & Hk & Hsub & Hall & Hlen & Hfirst)%IH.
    exists (S k), t0. repeat split; [done..|].
    intros [|k'] t' Hlt Hk'; simpl in Hk'; [congruence|].
    apply (Hfirst k'); [lia | done].
Qed.

Lemma first_url_shape_witness :
  ∃ k t, ["no link here"; "see https://host/p?q=1 now"; "http://later"] !! k = Some t
         ∧ substring "https://host/p?q=1" t
         ∧ str_all Chr.url_char "https://host/p?q=1" = true
         ∧ 8 ≤ String.length "https://host/p?q=1"
         ∧ ∀ k' t', k' < k →
             ["no link here"; "see https://host/p?q=1 now"; "http://later"] !! k' = Some t' →
             search CUCUMBER_URL_PATTERN t' = None.
Proof. apply first_url_shape. by vm_compute. Defined.

(** ** The index, continued *)

Lemma block_entry_inv b id u :
  block_entry b = Some (id, u) →
  case_id_of (case_text b) = Some id ∧ first_url (output_texts b) = Some u.
Proof.
  unfold block_entry.
  destruct (case_id_of (case_text b)) as [id'|]; [|done].
  destruct (first_url (output_texts b)) as [u'|]; [|done].
  destruct (truthy id' && truthy u'); [|done]. by intros [= -> ->].
Qed.

Lemma first_url_is_url outs u : first_url outs = Some u → is_url u.
Proof.
  induction outs as [|t outs IH]; simpl; [done|].
  destruct (search CUCUMBER_URL_PATTERN t) as [m|] eqn:E; [|done].
  intros [= <-]. by destruct (url_search_shape t m E).
Qed.

Lemma build_urls_is_Some bs id :
  is_Some (build_urls bs !! id) ↔ ∃ b u, b ∈ bs ∧ block_entry b = Some (id, u).
Proof.
  induction bs as [|b0 bs IH] using rev_ind.
  { split; [by intros [? ?] | by intros (b & u & ?%elem_of_nil & _)]. }
  rewrite build_urls_snoc, index_block_entry. split.
  - destruct (block_entry b0) as [[id0 u0]|] eqn:E0.
    + destruct (decide (id0 = id)) as [->|Hne].
      * intros _. exists b0, u0. split; [|done]. apply elem_of_app. right. by left.
      * rewrite lookup_insert_ne by done. intros (b & u & Hb & Hu)%IH.
        exists b, u. split; [|done]. apply elem_of_app. by left.
    + intros (b & u & Hb & Hu)%IH. exists b, u. split; [|done].
      apply elem_of_app. by left.
  - intros (b & u & [Hb| ->%list_elem_of_singleton]%elem_of_app & Hu).
    + assert (Hold : is_Some (build_urls bs !! id)) by (apply IH; eauto).
      destruct (block_entry b0) as [[id0 u0]|]; [|done].
      destruct (decide (id0 = id)) as [->|Hne];
        [by rewrite lookup_insert_eq | by rewrite lookup_insert_ne].
    + rewrite Hu. by rewrite lookup_insert_eq.
Qed.

Lemma build_urls_Some_inv bs id u :
  build_urls bs !! id = Some u → ∃ b, b ∈ bs ∧ block_entry b = Some (id, u).
Proof.
  induction bs as [|b0 bs IH] using rev_ind; [done|].
  rewrite build_urls_snoc, index_block_entry.
  assert (Hold : build_urls bs !! id = Some u →
                 ∃ b, b ∈ bs ++ [b0] ∧ block_entry b = Some (id, u)).
  { intros (b & Hb & Hu)%IH. exists b. split; [|done]. apply elem_of_app. by left. }
  destruct (block_entry b0) as [[id0 u0]|] eqn:E0; [|done].
  destruct (decide (id0 = id)) as [->|Hne].
  - rewrite lookup_insert_eq. intros [= ->]. exists b0. split; [|done].
    apply elem_of_app. right. by left.
  - by rewrite lookup_insert_ne.
Qed.

(** X3. Every entry of the identifier-to-URL mapping comes from a block of
    the document: some block has the key as its identifier and the value as
    the first URL of its output texts.  The key has the shape of an
    identifier, the value the shape of a URL. *)
Theorem index_entries_from_blocks (bs : list Block) (id u : string) :
  build_urls bs !! id = Some u →
  ∃ b, b ∈ bs ∧ case_id_of (case_text b) = Some id
       ∧ first_url (output_texts b) = Some u
       ∧ is_ident id ∧ is_url u.
Proof.
  intros (b & Hb & [Hid Hu]%block_entry_inv)%build_urls_Some_inv.
  exists b. split; [done|]. split; [done|]. split; [done|]. split.
  - by destruct (case_id_of_shape _ _ Hid).
  - by apply first_url_is_url in Hu.
Qed.

Lemma index_entries_from_blocks_witness :
  ∃ b, b ∈ blocks doc_partial_index ∧ case_id_of (case_text b) = Some "CD-2"
       ∧ first_url (output_texts b) = Some "https://host/cd"
       ∧ is_ident "CD-2" ∧ is_url "https://host/cd".
Proof. apply index_entries_from_blocks. by vm_compute. Defined.

(** X4. An identifier is missing from the mapping exactly when no block
    gives both that identifier and a URL; a block with an identifier and no
    URL in its output texts adds nothing. *)
Theorem index_missing_key (bs : list Block) (id : string) :
  build_urls bs !! id = None ↔
  ∀ b, b ∈ bs → case_id_of (case_text b) = Some id →
       first_url (output_texts b) = None.
Proof.
  rewrite eq_None_not_Some, build_urls_is_Some. split.
  - intros Hno b Hb Hid. destruct (first_url (output_texts b)) as [u|] eqn:Hu; [|done].
    exfalso. apply Hno. exists b, u. split; [done|]. unfold block_entry.
    rewrite Hid, Hu.
    destruct (case_id_of_shape _ _ Hid) as (_ & _ & Hlen).
    destruct (first_url_is_url _ _ Hu) as (_ & Hulen).
    assert (truthy id = true) as ->.
    { apply bool_decide_eq_true. intros ->. simpl in Hlen. lia. }
    assert (truthy u = true) as ->.
    { apply bool_decide_eq_true. intros ->. simpl in Hulen. lia. }
    done.
  - intros Hall (b & u & Hb & [Hid Hu]%block_entry_inv).
    rewrite (Hall b Hb Hid) in Hu. done.
Qed.

Lemma index_missing_key_witness :
  build_urls (blocks doc_partial_index) !! "AB-1" = None.
Proof.
  apply index_missing_key. intros b Hb Hid.
  apply elem_of_cons in Hb as [->|Hb]; [reflexivity|].
  apply list_elem_of_singleton in Hb as ->. by vm_compute in Hid.
Defined.

(** ** The line scan, continued *)

Lemma scan_from_statuses urls ls i todo :
  status_info <$> scan_from urls ls i todo = omap line_status todo.
Proof.
  revert i. induction todo as [|line todo IH]; intros i; simpl; [done|].
  unfold scan_line, line_status. destruct (signal line) as [[[sc ec] u]|]; simpl.
  - by rewrite IH.
  - apply IH.
Qed.

Lemma length_omap_filter {A B} (g : A → option B) (l : list A) :
  length (omap g l) = length (filter (λ x, is_Some (g x)) l).
Proof.
  induction l as [|x l IH]; [done|]. csimpl.
  rewrite filter_cons. case_decide as H; destruct (g x) as [y|]; simpl.
  - by rewrite IH.
  - by destruct H.
  - exfalso. apply H. eauto.
  - done.
Qed.

(** X5. The line scan gives one record for every line that carries a
    failure signal and none for the other lines, in the order of the
    lines: the statuses of its records are the statuses of the signal
    lines, read top to bottom. *)
Theorem scan_follows_signal_lines (urls : gmap string string) (ls : list string) :
  status_info <$> scan_failures urls ls = omap line_status ls
  ∧ length (scan_failures urls ls)
    = length (filter (λ l, is_Some (signal l)) ls).
Proof.
  assert (Hst : status_info <$> scan_failures urls ls = omap line_status ls)
    by apply scan_from_statuses.
  split; [done|].
  rewrite <- (length_fmap status_info), Hst, length_omap_filter.
  f_equal. apply list_filter_iff. intros l. unfold line_status.
  by rewrite fmap_is_Some.
Qed.

Lemma signal_numbers line sc ec u :
  signal line = Some (sc, ec, u) → is_number sc ∧ is_number ec.
Proof.
  unfold signal. destruct (search FAILURE_LINE_PATTERN line) as [m|] eqn:E1.
  - intros [= <- <- _]. by apply failure_groups in E1.
  - destruct (search ALT_FAILURE_PATTERN line) as [a|] eqn:E2; [|done].
    intros [= <- <- _]. apply alt_groups in E2 as [H1 H2]. done.
Qed.

Lemma signal_url line sc ec u :
  signal line = Some (sc, ec, u) →
  u = URL_NOT_FOUND
  ∨ ∃ m, search FAILURE_LINE_PATTERN line = Some m ∧ u = group 5 m.
Proof.
  unfold signal. destruct (search FAILURE_LINE_PATTERN line) as [m|] eqn:E1.
  - intros [= _ _ <-]. right. by exists m.
  - destruct (search ALT_FAILURE_PATTERN line) as [a|] eqn:E2; [|done].
    intros [= _ _ <-]. by left.
Qed.

Lemma resolve_url_missing urls tc u :
  urls !! default "" tc = None → resolve_url urls tc u = u.
Proof.
  unfold resolve_url. destruct tc as [id|]; simpl; [|done].
  destruct (truthy id); [|done]. by intros ->.
Qed.

(** X6. A record of the report whose testcase is not a key of the mapping
    has either the sentinel URL or the URL captured from a verbose failure
    line of the document: no other URL text reaches the output. *)
Theorem url_without_index_entry (d : Document) (f : FailureRecord) :
  f ∈ failures (parse_single_file d) →
  build_urls (blocks d) !! testcase f = None →
  url f = "URL Not Found"
  ∨ ∃ i line m, lines d !! i = Some line
                ∧ search FAILURE_LINE_PATTERN line = Some m
                ∧ url f = group 5 m.
Proof.
  intros Hf%failures_in_results Hnone. unfold results_of in Hf.
  apply elem_of_app in Hf as [Hf|Hf].
  - apply elem_of_scan_failures in Hf as (i & line & Hi & Hf).
    apply scan_line_inv in Hf as (sc & ec & u & Hsig & ->). simpl in *.
    rewrite (resolve_url_missing _ _ _ Hnone).
    destruct (signal_url _ _ _ _ Hsig) as [->|(m & Hm & ->)]; [by left|].
    right. by exists i, line, m.
  - apply elem_of_orphans in Hf as (b & id & _ & _ & _ & ->). simpl in *.
    left. by rewrite Hnone.
Qed.

Lemma url_without_index_entry_witness :
  ∃ f, f ∈ failures (parse_single_file doc_verbose)
       ∧ (url f = "URL Not Found"
          ∨ ∃ i line m, lines doc_verbose !! i = Some line
                        ∧ search FAILURE_LINE_PATTERN line = Some m
                        ∧ url f = group 5 m).
Proof.
  exists {| status_info := "HTTP 404 (expected 200)"; testcase := "TC-1234";
            url := "http://x/y";
            error_analysis := join nl [verbose_line; "{}"; "TC-1234 running"] |}.
  assert (Hin : {| status_info := "HTTP 404 (expected 200)"; testcase := "TC-1234";
                   url := "http://x/y";
                   error_analysis := join nl [verbose_line; "{}"; "TC-1234 running"] |}
                ∈ failures (parse_single_file doc_verbose)).
  { vm_compute. by left. }
  split; [done|]. apply (url_without_index_entry doc_verbose _ Hin). by vm_compute.
Defined.

(** X7. The status_info of every record of the report is either the text
    "no status code" or "HTTP M (expected N)" with M and N two numbers
    (one decimal digit or more each). *)
Theorem status_info_shape (d : Document) (f : FailureRecord) :
  f ∈ failures (parse_single_file d) →
  status_info f = "no status code"
  ∨ ∃ M N, is_number M ∧ is_number N
           ∧ status_info f = "HTTP " +:+ M +:+ " (expected " +:+ N +:+ ")".
Proof.
  intros Hf%failures_in_results. unfold results_of in Hf.
  apply elem_of_app in Hf as [Hf|Hf].
  - apply elem_of_scan_from in Hf as (i & line & Hf).
    apply scan_line_inv in Hf as (sc & ec & u & Hsig & ->). simpl.
    right. exists sc, ec. by destruct (signal_numbers _ _ _ _ Hsig).
  - apply elem_of_orphans in Hf as (b & id & _ & _ & _ & ->). by left.
Qed.

Lemma status_info_shape_witness :
  ∃ f, f ∈ failures (parse_single_file doc_two_urls)
       ∧ (status_info f = "no status code"
          ∨ ∃ M N, is_number M ∧ is_number N
                   ∧ status_info f = "HTTP " +:+ M +:+ " (expected " +:+ N +:+ ")").
Proof.
  exists (orphan_record (build_urls (blocks doc_two_urls))
            (block_with "TC-1" "http://a") "TC-1").
  assert (Hin : orphan_record (build_urls (blocks doc_two_urls))
                  (block_with "TC-1" "http://a") "TC-1"
                ∈ failures (parse_single_file doc_two_urls)).
  { vm_compute. by left. }
  split; [exact Hin|]. exact (status_info_shape doc_two_urls _ Hin).
Defined.

(** ** The orphan pass *)

Lemma case_id_truthy text id : case_id_of text = Some id → truthy id = true.
Proof.
  intros (_ & _ & Hlen)%case_id_of_shape.
  apply bool_decide_eq_true. intros ->. simpl in Hlen. lia.
Qed.

Lemma elem_of_orphans_iff urls reported bs f :
  f ∈ orphans urls reported bs ↔
  ∃ k b id, bs !! k = Some b ∧ case_id_of (case_text b) = Some id
    ∧ (id ∉ reported)
    ∧ (∀ k' b', k' < k → bs !! k' = Some b' → case_id_of (case_text b') ≠ Some id)
    ∧ f = orphan_record urls b id.
Proof.
  revert reported. induction bs as [|b0 bs IH]; intros reported.
  { simpl. split; [by intros ?%elem_of_nil | by intros (k & b & id & ? & _)]. }
  (* a block that adds no record: the pass goes on with the same set *)
  assert (Hskip : (∀ id, case_id_of (case_text b0) = Some id → id ∈ reported) →
    (f ∈ orphans urls reported bs ↔
     ∃ k b id, (b0 :: bs) !! k = Some b ∧ case_id_of (case_text b) = Some id
       ∧ (id ∉ reported)
       ∧ (∀ k' b', k' < k → (b0 :: bs) !! k' = Some b' →
                   case_id_of (case_text b') ≠ Some id)
       ∧ f = orphan_record urls b id)).
  { intros H0. rewrite IH. split.
    - intros (k & b & id & Hk & Hid & Hnew & Hfirst & ->).
      exists (S k), b, id. split; [done|]. split; [done|]. split; [done|].
      split; [|done]. intros [|k'] b' Hlt Hk'; simpl in Hk'.
      + injection Hk' as <-. intros Hid0. by apply Hnew, H0.
      + apply (Hfirst k'); [lia | done].
    - intros ([|k] & b & id & Hk & Hid & Hnew & Hfirst & ->); simpl in Hk.
      + injection Hk as <-. exfalso. by apply Hnew, H0.
      + exists k, b, id. split; [done|]. split; [done|]. split; [done|].
        split; [|done]. intros k' b' Hlt Hk'. apply (Hfirst (S k')); [lia | done]. }
  simpl. destruct (case_id_of (case_text b0)) as [id0|] eqn:E0; [|by apply Hskip].
  rewrite (case_id_truthy _ _ E0). simpl. case_bool_decide as Hnew0.
  - rewrite elem_of_cons, IH. split.
    + intros [->|(k & b & id & Hk & Hid & Hnew & Hfirst & ->)].
      * exists 0, b0, id0. split; [done|]. split; [done|]. split; [done|].
        split; [|done]. intros; lia.
      * exists (S k), b, id. split; [done|]. split; [done|].
        split; [intros Hin; apply Hnew, elem_of_union; by right|]. split; [|done].
        intros [|k'] b' Hlt Hk'; simpl in Hk'.
        -- injection Hk' as <-. rewrite E0. intros [= ->].
           apply Hnew, elem_of_union. left. by apply elem_of_singleton.
        -- apply (Hfirst k'); [lia | done].
    + intros ([|k] & b & id & Hk & Hid & Hnew & Hfirst & ->); simpl in Hk.
      * injection Hk as <-. left. congruence.
      * right. exists k, b, id. split; [done|]. split; [done|]. split.
        -- assert (Hne : id ≠ id0).
           { intros ->. by apply (Hfirst 0 b0); [lia | done |]. }
           by intros [->%elem_of_singleton|Hin]%elem_of_union.
        -- split; [|done]. intros k' b' Hlt Hk'. apply (Hfirst (S k')); [lia | done].
  - apply Hskip. by intros id [= <-].
Qed.

(** X8. The orphan pass adds a record for exactly the identifiers of blocks
    that are not yet reported, one each: the record is built from the first
    block with that identifier (its first 12 text lines), has the status
    "no status code", and takes its URL from the mapping, or the sentinel
    when the identifier is not a key. *)
Theorem orphan_pass_records (urls : gmap string string) (reported : gset string)
    (bs : list Block) (f : FailureRecord) :
  f ∈ orphans urls reported bs ↔
  ∃ k b id, bs !! k = Some b ∧ case_id_of (case_text b) = Some id
    ∧ (id ∉ reported)
    ∧ (∀ k' b', k' < k → bs !! k' = Some b' → case_id_of (case_text b') ≠ Some id)
    ∧ f = {| status_info := "no status code"; testcase := id;
             url := default "URL Not Found" (urls !! id);
             error_analysis := join nl (take 12 (text_lines b)) |}.
Proof. apply elem_of_orphans_iff. Qed.

Lemma orphan_pass_records_witness :
  {| status_info := "no status code"; testcase := "QA-5"; url := "http://h/5";
     error_analysis := "QA-5 first" |}
  ∈ orphans (build_urls (blocks doc_orphans)) ∅ (blocks doc_orphans).
Proof.
  apply orphan_pass_records.
  exists 0, {| case_text := "QA-5 first"; output_texts := [];
               text_lines := ["QA-5 first"] |}, "QA-5".
  split; [reflexivity|]. split; [by vm_compute|].
  split; [apply not_elem_of_empty|]. split; [intros; lia|]. by vm_compute.
Defined.

Lemma orphans_cover urls reported bs b id :
  b ∈ bs → case_id_of (case_text b) = Some id →
  id ∈ reported ∨ ∃ f, f ∈ orphans urls reported bs ∧ testcase f = id.
Proof.
  revert reported. induction bs as [|b0 bs IH]; intros reported Hb Hid.
  { by apply elem_of_nil in Hb. }
  simpl. apply elem_of_cons in Hb as [->|Hb].
  - rewrite Hid, (case_id_truthy _ _ Hid). simpl. case_bool_decide as Hnew.
    + right. eexists. split; [by left | done].
    + by left.
  - destruct (case_id_of (case_text b0)) as [id0|] eqn:E0; [|by apply IH].
    rewrite (case_id_truthy _ _ E0). simpl. case_bool_decide as Hnew0; [|by apply IH].
    destruct (IH ({[id0]} ∪ reported) Hb Hid) as [Hin|(f & Hf & Ht)].
    + apply elem_of_union in Hin as [->%elem_of_singleton|Hin]; [|by left].
      right. eexists. split; [by left | done].
    + right. exists f. split; [by right | done].
Qed.

Lemma elem_of_reported_of rs id :
  id ∈ reported_of rs ↔ ∃ f, f ∈ rs ∧ testcase f = id ∧ id ≠ "".
Proof.
  unfold reported_of. rewrite elem_of_list_to_set, list_elem_of_filter, list_elem_of_fmap.
  split.
  - intros (Hne & f & -> & Hf). exists f. split; [done|]. split; [done|].
    by apply truthy_spec, Is_true_true.
  - intros (f & Hf & <- & Hne). split; [|by exists f].
    by apply Is_true_true, truthy_spec.
Qed.

(** a keyed record given to step 4 leaves a record with its key in the report *)
Lemma keyed_record_survives rs f :
  f ∈ rs → testcase f ≠ "" →
  ∃ f0, f0 ∈ failures (deduplicate rs) ∧ unique_key f0 = unique_key f.
Proof.
  intros Hf Ht. destruct (dedup_loop_spec rs) as (Ha & _ & Hc).
  destruct (proj1 (list_elem_of_fmap _ _ _) (Hc f Hf Ht)) as ([k f0] & Hk & Hin).
  simpl in Hk. subst k. destruct (Ha _ _ Hin) as (Hkey & _).
  exists f0. split; [|done]. apply failures_deduplicate. by rewrite <- Hkey.
Qed.

(** X9. Every block in which an identifier is found is represented in the
    report: some record of the returned failures has that identifier as its
    testcase, whether a failure line was bound to it or not. *)
Theorem every_block_is_reported (d : Document) (b : Block) (id : string) :
  b ∈ blocks d → case_id_of (case_text b) = Some id →
  ∃ f, f ∈ failures (parse_single_file d) ∧ testcase f = id.
Proof.
  intros Hb Hid.
  assert (Hne : id ≠ "") by (by apply truthy_spec, (case_id_truthy (case_text b))).
  set (urls := build_urls (blocks d)).
  set (scan := scan_failures urls (lines d)).
  assert (Hpre : ∃ f, f ∈ results_of d ∧ testcase f = id).
  { unfold results_of. fold urls scan.
    destruct (orphans_cover urls (reported_of scan) _ _ _ Hb Hid)
      as [(f & Hf & Ht & _)%elem_of_reported_of|(f & Hf & Ht)];
      exists f; (split; [|done]); apply elem_of_app; [by left | by right]. }
  destruct Hpre as (f & Hf & Ht).
  destruct (keyed_record_survives _ f Hf) as (f0 & Hf0 & Hkey); [congruence|].
  exists f0. split; [done|]. rewrite <- Ht.
  assert (Hp : pair_of f0 = pair_of f).
  { apply unique_key_inj; [| |done]; apply (results_testcase_chars d);
      [by apply failures_in_results | done]. }
  by injection Hp.
Qed.

Lemma every_block_is_reported_witness :
  ∃ f, f ∈ failures (parse_single_file doc_orphans) ∧ testcase f = "QA-6".
Proof.
  apply (every_block_is_reported doc_orphans (block_with "QA-6" "http://h/6")).
  - right. by left.
  - by vm_compute.
Defined.

(** ** De-duplication, continued *)

Lemma unique_failures_sublist rs :
  (unique_failures (dedup_loop rs)).*2 `sublist_of` rs.
Proof.
  induction rs as [|f rs IH] using rev_ind; [done|].
  rewrite unique_failures_snoc.
  destruct (truthy (testcase f)); [|by apply sublist_inserts_r].
  destruct (has_key _ _); [by apply sublist_inserts_r|].
  rewrite fmap_app. by apply sublist_app.
Qed.

(** X10. De-duplication only removes records: the returned failures are
    the given records with some left out, in their original order, so
    total_unique never exceeds the number of records given. *)
Theorem failures_are_a_subsequence (rs : list FailureRecord) :
  failures (deduplicate rs) `sublist_of` rs
  ∧ total_unique (deduplicate rs) ≤ length rs.
Proof.
  split; [apply unique_failures_sublist|].
  simpl. rewrite length_fmap, <- (length_fmap snd).
  apply sublist_length, unique_failures_sublist.
Qed.

Lemma failures_without_testcase_snoc rs f :
  failures_without_testcase (dedup_loop (rs ++ [f]))
  = if truthy (testcase f) then failures_without_testcase (dedup_loop rs)
    else failures_without_testcase (dedup_loop rs) ++ [f].
Proof.
  unfold dedup_loop. rewrite foldl_app. simpl. unfold dedup_step.
  destruct (truthy (testcase f)); [|done].
  by destruct (has_key _ _).
Qed.

Lemma unkeyed_filter rs :
  failures_without_testcase (dedup_loop rs) = filter (λ f, testcase f = "") rs.
Proof.
  induction rs as [|f rs IH] using rev_ind; [done|].
  rewrite failures_without_testcase_snoc, filter_app, IH, filter_cons, filter_nil.
  destruct (truthy (testcase f)) eqn:Ht.
  - apply truthy_spec in Ht. rewrite decide_False by done. by rewrite app_nil_r.
  - rewrite decide_True; [done|]. destruct (decide (testcase f = "")) as [|Hne]; [done|].
    apply truthy_spec in Hne. congruence.
Qed.

(** X11. The loop of step 4 sorts every record into one of its two
    collections by its testcase: [failures_without_testcase] receives
    exactly the records with an empty testcase, in order, and the returned
    failures, which are read from [unique_failures], hold keyed records
    only. *)
Theorem records_sorted_by_testcase (rs : list FailureRecord) :
  failures_without_testcase (dedup_loop rs) = filter (λ f, testcase f = "") rs
  ∧ ∀ f, f ∈ failures (deduplicate rs) → testcase f ≠ "".
Proof. split; [apply unkeyed_filter | apply failures_keyed]. Qed.

Lemma counter_snoc xs y :
  counter (xs ++ [y]) = <[y := S (default 0 (counter xs !! y))]> (counter xs).
Proof. unfold counter. by rewrite foldl_app. Qed.

Lemma counter_lookup xs x :
  counter xs !! x
  = match length (filter (λ y, y = x) xs) with 0 => None | S n => Some (S n) end.
Proof.
  induction xs as [|y xs IH] using rev_ind; [done|].
  rewrite counter_snoc, filter_app, length_app, filter_cons, filter_nil.
  destruct (decide (y = x)) as [->|Hne].
  - rewrite lookup_insert_eq, IH. simpl.
    destruct (length (filter (λ y, y = x) xs)); simpl; f_equal; lia.
  - rewrite lookup_insert_ne by done. simpl. by rewrite Nat.add_0_r.
Qed.

Lemma sum_counts_insert (m : gmap string nat) x n :
  sum_counts (<[x := n]> m) + default 0 (m !! x) = n + sum_counts m.
Proof.
  unfold sum_counts. destruct (m !! x) as [k|] eqn:E; simpl.
  - rewrite <- (insert_delete_eq m x n).
    rewrite (map_fold_insert_L _ _ x n (delete x m));
      [|intros; lia|by rewrite lookup_delete_eq].
    rewrite <- (insert_delete_id m x k E) at 2.
    rewrite (map_fold_insert_L _ _ x k (delete x m));
      [|intros; lia|by rewrite lookup_delete_eq].
    lia.
  - rewrite (map_fold_insert_L _ _ x n m); [lia|intros; lia|done].
Qed.

Lemma sum_counts_counter xs : sum_counts (counter xs) = length xs.
Proof.
  induction xs as [|y xs IH] using rev_ind; [done|].
  rewrite counter_snoc, length_app. simpl.
  pose proof (sum_counts_insert (counter xs) y (S (default 0 (counter xs !! y)))).
  lia.
Qed.

(** X12. The status summary counts the returned failures: a status is a
    key of the summary exactly when some returned record has it, its value
    is the number of those records, and the values add up to
    total_unique. *)
Theorem status_summary_counts (rs : list FailureRecord) :
  (∀ s, status_summary (deduplicate rs) !! s
        = match count_status s (failures (deduplicate rs)) with
          | 0 => None
          | S n => Some (S n)
          end)
  ∧ sum_counts (status_summary (deduplicate rs)) = total_unique (deduplicate rs).
Proof.
  split.
  - intros s. apply counter_lookup.
  - simpl. by rewrite sum_counts_counter, length_fmap.
Qed.

(** ** How the passes compose *)

Lemma orphans_testcase_fresh urls reported bs f :
  f ∈ orphans urls reported bs → testcase f ∉ reported.
Proof. by intros (k & b & id & _ & _ & Hnew & _ & ->)%elem_of_orphans_iff. Qed.

Lemma orphans_NoDup urls reported bs :
  NoDup (testcase <$> orphans urls reported bs).
Proof.
  revert reported. induction bs as [|b0 bs IH]; intros reported; simpl; [constructor|].
  destruct (case_id_of (case_text b0)) as [id0|]; [|apply IH].
  destruct (truthy id0 && bool_decide (id0 ∉ reported)); [|apply IH].
  simpl. apply NoDup_cons. split; [|apply IH].
  intros (f & Ht & Hf%orphans_testcase_fresh)%list_elem_of_fmap.
  apply Hf. rewrite <- Ht. apply elem_of_union. left. by apply elem_of_singleton.
Qed.

Lemma NoDup_fmap_agree {A B} (g : A → B) (l : list A) x y :
  NoDup (g <$> l) → x ∈ l → y ∈ l → g x = g y → x = y.
Proof.
  induction l as [|z l IH]; simpl; [by intros _ ?%elem_of_nil|].
  intros [Hz Hnd]%NoDup_cons Hx Hy Heq.
  apply elem_of_cons in Hx as [->|Hx]; apply elem_of_cons in Hy as [->|Hy].
  - done.
  - exfalso. apply Hz. rewrite Heq. by apply list_elem_of_fmap_2.
  - exfalso. apply Hz. rewrite <- Heq. by apply list_elem_of_fmap_2.
  - by apply IH.
Qed.

(** records with new keys, all different, go through step 4 untouched *)
Lemma unique_failures_app_fresh rs extra :
  (∀ f, f ∈ extra → testcase f ≠ "") →
  NoDup (unique_key <$> extra) →
  (∀ f, f ∈ extra → unique_key f ∉ (unique_failures (dedup_loop rs)).*1) →
  unique_failures (dedup_loop (rs ++ extra))
  = unique_failures (dedup_loop rs) ++ ((λ f, (unique_key f, f)) <$> extra).
Proof.
  induction extra as [|f extra IH] using rev_ind; intros Ht Hnd Hnew.
  { by rewrite !app_nil_r. }
  rewrite fmap_app in Hnd. apply NoDup_app in Hnd as (Hnd & Hdisj & _).
  rewrite app_assoc, unique_failures_snoc, IH; [|intros g Hg|done|intros g Hg].
  - assert (truthy (testcase f) = true) as ->.
    { apply truthy_spec, Ht, elem_of_app. right. by left. }
    assert (has_key (unique_key f)
              (unique_failures (dedup_loop rs) ++ ((λ f, (unique_key f, f)) <$> extra))
            = false) as ->.
    { apply not_true_is_false. intros Hk%has_key_spec.
      rewrite fmap_app in Hk. apply elem_of_app in Hk as [Hk|Hk].
      - apply (Hnew f); [|done]. apply elem_of_app. right. by left.
      - rewrite <- list_fmap_compose in Hk. apply (Hdisj _ Hk). by left. }
    by rewrite fmap_app, <- app_assoc.
  - apply Ht, elem_of_app. by left.
  - apply Hnew, elem_of_app. by left.
Qed.

(** X13. The report is the de-duplicated records of the line scan followed
    by all records of the orphan pass: step 4 removes no orphan record and
    leaves them behind the scan records, in block order. *)
Theorem report_is_scan_then_orphans (d : Document) :
  let urls := build_urls (blocks d) in
  let scan := scan_failures urls (lines d) in
  failures (parse_single_file d)
  = failures (deduplicate scan) ++ orphans urls (reported_of scan) (blocks d).
Proof.
  intros urls scan. unfold parse_single_file, results_of. fold urls scan.
  set (orph := orphans urls (reported_of scan) (blocks d)).
  assert (Hchars : ∀ f, f ∈ scan ++ orph → str_all id_char (testcase f) = true).
  { intros f Hf. by apply (results_testcase_chars d). }
  assert (Horph : ∀ f, f ∈ orph → testcase f ≠ "").
  { intros f (b & id & _ & _ & Hne & ->)%elem_of_orphans. done. }
  simpl. rewrite unique_failures_app_fresh.
  - rewrite fmap_app, <- list_fmap_compose. f_equal. apply list_fmap_id.
  - done.
  - apply NoDup_fmap_2_strong.
    + intros f g Hf Hg Hkey.
      apply (NoDup_fmap_agree testcase orph); [apply orphans_NoDup | done..|].
      assert (Hp : pair_of f = pair_of g).
      { apply unique_key_inj; [| |done]; apply Hchars, elem_of_app; by right. }
      by injection Hp.
    + apply (NoDup_fmap_1 testcase), orphans_NoDup.
  - intros f Hf ([k f0] & Hk & Hin)%list_elem_of_fmap. simpl in Hk. subst k.
    destruct (proj1 (dedup_loop_spec scan) _ _ Hin) as (Hkey & Ht0 & j & Hj & _).
    apply list_elem_of_lookup_2 in Hj.
    assert (Hp : pair_of f0 = pair_of f).
    { apply unique_key_inj; [| |done]; apply Hchars, elem_of_app; [by left | by right]. }
    injection Hp as Hp _.
    apply (orphans_testcase_fresh _ _ _ _ Hf), elem_of_reported_of.
    exists f0. split; [done|]. split; [done|]. by rewrite <- Hp.
Qed.

(** X15. A test case that the report lists with "no status code" has no
    other record in the report: the orphan pass skips every identifier the
    line scan has bound, and adds each remaining identifier once. *)
Theorem orphan_testcase_is_alone (d : Document) (f g : FailureRecord) :
  f ∈ failures (parse_single_file d) → g ∈ failures (parse_single_file d) →
  status_info f = "no status code" → testcase g = testcase f →
  g = f.
Proof.
  intros Hf%failures_in_results Hg%failures_in_results Hst Ht.
  unfold results_of in Hf, Hg.
  set (urls := build_urls (blocks d)) in *.
  set (scan := scan_failures urls (lines d)) in *.
  assert (Hforph : f ∈ orphans urls (reported_of scan) (blocks d)).
  { apply elem_of_app in Hf as [Hf|Hf]; [|done]. exfalso.
    apply elem_of_scan_from in Hf as (i & line & Hf).
    apply scan_line_inv in Hf as (sc & ec & u & _ & ->). by simpl in Hst. }
  apply elem_of_app in Hg as [Hg|Hg].
  - exfalso. apply (orphans_testcase_fresh _ _ _ _ Hforph), elem_of_reported_of.
    exists g. split; [done|]. split; [done|].
    apply elem_of_orphans in Hforph as (b & id & _ & _ & Hne & ->). done.
  - by apply (NoDup_fmap_agree testcase (orphans urls (reported_of scan) (blocks d))
                g f (orphans_NoDup _ _ _)).
Qed.

Lemma orphan_testcase_is_alone_witness :
  let f := orphan_record (build_urls (blocks doc_orphans))
             (block_with "QA-6" "http://h/6") "QA-6" in
  f ∈ failures (parse_single_file doc_orphans)
  ∧ status_info f = "no status code" ∧ f = f.
Proof.
  intros f.
  assert (Hin : f ∈ failures (parse_single_file doc_orphans)).
  { vm_compute. right. by left. }
  split; [exact Hin|]. split; [reflexivity|].
  exact (orphan_testcase_is_alone doc_orphans f f Hin Hin eq_refl eq_refl).
Defined.

(** ** The endpoint, continued *)

(** X14. The endpoint returns one result per upload, in upload order: the
    k-th result carries the upload's file name, the report of its document
    and the id "file_k" counted from 1; files_processed is the number of
    uploads, and the ids are pairwise different even when file names
    repeat. *)
Theorem parse_failures_results (files : list (string * Document)) :
  files_processed (parse_failures files) = length files
  ∧ length (results (parse_failures files)) = length files
  ∧ NoDup (file_id <$> results (parse_failures files))
  ∧ ∀ k name d, files !! k = Some (name, d) →
      results (parse_failures files) !! k
      = Some {| file_id := "file_" +:+ pretty (S k); filename := name;
                parsed := parse_single_file d |}.
Proof.
  split; [apply length_imap|]. split; [apply length_imap|]. split.
  - apply NoDup_alt. intros i j x. simpl.
    rewrite !list_lookup_fmap, !list_lookup_imap.
    destruct (files !! i) as [fi|]; [|done]. destruct (files !! j) as [fj|]; [|done].
    simpl. intros [= <-] [= Heq].
    apply (inj pretty) in Heq. lia.
  - intros k name d Hk. by apply parse_failures_lookup.
Qed.

Lemma parse_failures_results_witness :
  results (parse_failures [("r.html", doc_verbose); ("r.html", doc_empty)]) !! 1
  = Some {| file_id := "file_2"; filename := "r.html";
            parsed := parse_single_file doc_empty |}.
Proof.
  exact (proj2 (proj2 (proj2 (parse_failures_results
           [("r.html", doc_verbose); ("r.html", doc_empty)])))
           1 "r.html" doc_empty eq_refl).
Defined.
